(** * Verification of the tutorial functions of sta-663-2021

    The notebooks define short Python functions.  Each one is embedded
    below as a Rocq function over exact rational arithmetic ([Q]) for
    Python floats, unbounded integers ([Z]) for Python ints, and the
    option monad for Python exceptions ([None] stands for a raised,
    unhandled exception).  Loops over [range(n)] are folds of the loop
    body over the indices; arrays are lists read with [!!] and written
    with [<[i:=x]>], where an index out of range raises. *)

From stdpp Require Import base option list gmap strings.
From Stdlib Require Import QArith Qabs Qpower Qround Lia Lra Psatz.

Open Scope Q_scope.

(** ** Python runtime pieces shared by the notebooks *)

Module Py.

(** [for i in range(lo, lo + n): s = body(i, s)], where the body may raise. *)
Fixpoint for_range {St : Type} (body : nat → St → option St)
    (lo n : nat) (s : St) : option St :=
  match n with
  | O => Some s
  | S n' => s' ← body lo s; for_range body (S lo) n' s'
  end.

(** [xs[i]] on a list: [IndexError] out of range. *)
Definition get_item {A : Type} (xs : list A) (i : nat) : option A := xs !! i.

(** [xs[i] = x] on a list or array: [IndexError] out of range. *)
Definition set_item {A : Type} (xs : list A) (i : nat) (x : A) : option (list A) :=
  if decide (i < length xs)%nat then Some (<[i:=x]> xs) else None.

(** [np.zeros(n)] *)
Definition zeros (n : nat) : list Q := replicate n 0.

(** [a / b] on numbers: no value when the divisor is zero. *)
Definition div (a b : Q) : option Q :=
  if Qeq_dec b 0 then None else Some (a / b).

(** [b ** k] for a natural exponent. *)
Definition pow (b : Q) (k : nat) : Q := b ^ Z.of_nat k.

(** [sum(f(k) for k in range(n))], added from the left starting at 0. *)
Fixpoint Qsum (f : nat → Q) (n : nat) : Q :=
  match n with
  | O => 0
  | S n' => Qsum f n' + f n'
  end.

End Py.

(** ** T07G_Gradient_Descent_Optimization *)

Module GradientDescent.
Import Py.

(** [ewa(y, beta)]: the loop state is the pair [(z, zs)]. *)
Definition ewa_body (y : list Q) (beta : Q) (i : nat) (st : Q * list Q)
    : option (Q * list Q) :=
  let '(z, zs) := st in
  yi ← get_item y i;
  let z := beta * z + (1 - beta) * yi in
  zs ← set_item zs i z;
  Some (z, zs).

Definition ewa (y : list Q) (beta : Q) : option (list Q) :=
  let n := length y in
  let zs := zeros n in
  let z := 0 in
  st ← for_range (ewa_body y beta) 0 n (z, zs);
  Some (snd st).

(** [ewabc(y, beta)]: as [ewa], storing [zc = z/(1 - beta**(i+1))]. *)
Definition ewabc_body (y : list Q) (beta : Q) (i : nat) (st : Q * list Q)
    : option (Q * list Q) :=
  let '(z, zs) := st in
  yi ← get_item y i;
  let z := beta * z + (1 - beta) * yi in
  zc ← div z (1 - pow beta (i + 1));
  zs ← set_item zs i zc;
  Some (z, zs).

Definition ewabc (y : list Q) (beta : Q) : option (list Q) :=
  let n := length y in
  let zs := zeros n in
  let z := 0 in
  st ← for_range (ewabc_body y beta) 0 n (z, zs);
  Some (snd st).

(** [gd_momentum(x, grad, alpha, beta, max_iter)]: the loop state is
    [(x, v, xs)]. *)
Definition gd_momentum_body (grad : Q → Q) (alpha beta : Q) (i : nat)
    (st : Q * Q * list Q) : option (Q * Q * list Q) :=
  let '(x, v, xs) := st in
  let v := beta * v + (1 - beta) * grad x in
  vc ← div v (1 + pow beta (i + 1));
  let x := x - alpha * vc in
  xs ← set_item xs (i + 1) x;
  Some (x, v, xs).

Definition gd_momentum (x : Q) (grad : Q → Q) (alpha beta : Q)
    (max_iter : nat) : option (list Q) :=
  let xs := zeros (1 + max_iter) in
  xs ← set_item xs 0 x;
  let v := 0 in
  st ← for_range (gd_momentum_body grad alpha beta) 0 max_iter (x, v, xs);
  Some (snd st).

(** The objective of the 1D example and its gradient. *)
Definition f (x : Q) : Q := x ^ 2.
Definition grad (x : Q) : Q := 2 * x.

(** The value of [z] after [k] iterations of the loop of [ewa] (and of
    [ewabc], whose [z] follows the same assignments). *)
Fixpoint ewa_z (y : list Q) (beta : Q) (k : nat) : Q :=
  match k with
  | O => 0
  | S k' => beta * ewa_z y beta k' + (1 - beta) * nth k' y 0
  end.

(** [a*y + b*z] on arrays of one length. *)
Definition lincomb (a : Q) (y : list Q) (b : Q) (z : list Q) : list Q :=
  zip_with (λ u w, a * u + b * w) y z.

(** The pair [(x, v)] after [k] iterations of the loop of [gd_momentum]. *)
Fixpoint gd_momentum_state (x0 : Q) (grad : Q → Q) (alpha beta : Q) (k : nat)
    : Q * Q :=
  match k with
  | O => (x0, 0)
  | S k' =>
      let '(x, v) := gd_momentum_state x0 grad alpha beta k' in
      let v := beta * v + (1 - beta) * grad x in
      (x - alpha * (v / (1 + pow beta (k' + 1))), v)
  end.

(** The velocity recurrence [v ← beta*v + (1-beta)*grad(x)] read along the
    recorded rows [xs], started at [v = 0]. *)
Fixpoint velocity (grad : Q → Q) (beta : Q) (xs : list Q) (k : nat) : Q :=
  match k with
  | O => 0
  | S k' => beta * velocity grad beta xs k' + (1 - beta) * grad (nth k' xs 0)
  end.


(** [gd(x, grad, alpha, max_iter)]: the loop state is [(x, xs)]. *)
Definition gd_body (grad : Q → Q) (alpha : Q) (i : nat) (st : Q * list Q)
    : option (Q * list Q) :=
  let '(x, xs) := st in
  let x := x - alpha * grad x in
  xs ← set_item xs (i + 1) x;
  Some (x, xs).

Definition gd (x : Q) (grad : Q → Q) (alpha : Q) (max_iter : nat)
    : option (list Q) :=
  let xs := zeros (1 + max_iter) in
  xs ← set_item xs 0 x;
  st ← for_range (gd_body grad alpha) 0 max_iter (x, xs);
  Some (snd st).

(** The value of [x] after [k] iterations of the loop of [gd]. *)
Fixpoint gd_state (x0 : Q) (grad : Q → Q) (alpha : Q) (k : nat) : Q :=
  match k with
  | O => x0
  | S k' => gd_state x0 grad alpha k' - alpha * grad (gd_state x0 grad alpha k')
  end.

(** [sum(ts)]: the builtin adds from the left, starting at 0. *)
Definition py_sum (ts : list Q) : Q := fold_left Qplus ts 0.

(** [rosen(x)]: [x[1:]] and [x[:-1]] both have [len(x) - 1] entries. *)
Definition rosen (x : list Q) : Q :=
  py_sum (zip_with (λ a b, 100 * (a - b ^ 2) ^ 2 + (1 - b) ^ 2)
            (drop 1 x) (take (length x - 1) x)).

(** [xs[lo:hi] = vals] on an array, for [0 <= lo] and [0 <= hi]: the bounds
    are clipped to the array as Python does, and the value must have the
    length of the slice (a value of another length does not occur here). *)
Definition set_slice (xs : list Q) (lo hi : nat) (vals : list Q) : option (list Q) :=
  let lo' := Nat.min lo (length xs) in
  let hi' := Nat.max lo' (Nat.min hi (length xs)) in
  if decide (length vals = hi' - lo')%nat
  then Some (take lo' xs ++ vals ++ drop hi' xs)
  else None.

(** [xs[-k]] for [k >= 1]: [IndexError] when the array is shorter than [k]. *)
Definition get_from_end (xs : list Q) (k : nat) : option Q :=
  if decide (1 ≤ k ≤ length xs)%nat then xs !! (length xs - k)%nat else None.

(** [xs[-k] = v] for [k >= 1]. *)
Definition set_from_end (xs : list Q) (k : nat) (v : Q) : option (list Q) :=
  if decide (1 ≤ k ≤ length xs)%nat then Some (<[(length xs - k)%nat:=v]> xs) else None.

(** [rosen_der(x)] *)
Definition rosen_der (x : list Q) : option (list Q) :=
  let n := length x in
  let xm := drop 1 (take (n - 1) x) in
  let xm_m1 := take (n - 2) x in
  let xm_p1 := drop 2 x in
  let der := zeros n in
  der ← set_slice der 1 (n - 1)
          (zip_with (λ '(m, m1) p1,
                       200 * (m - m1 ^ 2) - 400 * (p1 - m ^ 2) * m - 2 * (1 - m))
             (zip xm xm_m1) xm_p1);
  x0 ← get_item x 0;
  x1 ← get_item x 1;
  der ← set_item der 0 (-400 * x0 * (x1 - x0 ^ 2) - 2 * (1 - x0));
  xl ← get_from_end x 1;
  xl2 ← get_from_end x 2;
  der ← set_from_end der 1 (200 * (xl - xl2 ^ 2));
  Some der.

(** [a * v] and [u - v] on arrays of one length. *)
Definition vscale (a : Q) (v : list Q) : list Q := map (Qmult a) v.
Definition vsub (u v : list Q) : list Q := zip_with Qminus u v.

(** [la.norm(step) < tol]: the 2-norm is a square root; below a positive
    bound it is decided on the squares, and nothing is below [tol <= 0]. *)
Definition norm_lt (step : list Q) (tol : Q) : bool :=
  if Qlt_le_dec 0 tol
  then (if Qlt_le_dec (py_sum (map (λ q, q * q) step)) (tol * tol) then true else false)
  else false.

(** [opt.OptimizeResult(fun=..., x=..., nit=..., nfev=..., success=...)] *)
Record OptimizeResult : Type := mk_result {
  res_fun : Q;
  res_x : list Q;
  res_nit : nat;
  res_nfev : nat;
  res_success : bool
}.

(** The variables of [custmin] that its loop changes, and the list [ps]
    that the callback [reporter] appends to. *)
Record custmin_state : Type := mk_custmin_state {
  bestx : list Q;
  bestf : Q;
  funcalls : nat;
  niter : nat;
  improved : bool;
  stop : bool;
  ps : list (list Q)
}.

(** One pass through the body of the [while] loop; the flag tells whether
    it left by [break].  [callback] is [reporter] ([true]) or [None]. *)
Definition custmin_body (fn : list Q → Q) (maxfev : option nat) (alpha tol : Q)
    (callback : bool) (st : custmin_state) : option (custmin_state * bool) :=
  let niter := S (niter st) in
  der ← rosen_der (bestx st);
  let step := vscale alpha der in
  let bestx := vsub (bestx st) step in
  let bestf := fn bestx in
  let funcalls := S (funcalls st) in
  let improved := if norm_lt step tol then false else improved st in
  let ps := if callback then ps st ++ [bestx] else ps st in
  match maxfev with
  | Some m =>
      if decide (m ≤ funcalls)%nat
      then Some (mk_custmin_state bestx bestf funcalls niter improved true ps, true)
      else Some (mk_custmin_state bestx bestf funcalls niter improved (stop st) ps, false)
  | None => Some (mk_custmin_state bestx bestf funcalls niter improved (stop st) ps, false)
  end.

(** [while improved and not stop and niter < maxiter: ...]; the loop runs
    at most [maxiter] times, which bounds the recursion. *)
Fixpoint custmin_loop (fuel : nat) (fn : list Q → Q) (maxfev : option nat)
    (alpha : Q) (maxiter : nat) (tol : Q) (callback : bool) (st : custmin_state)
    : option custmin_state :=
  if improved st && negb (stop st) && (niter st <? maxiter)%nat then
    match fuel with
    | O => None
    | S fuel' =>
        '(st', brk) ← custmin_body fn maxfev alpha tol callback st;
        if (brk : bool) then Some st'
        else custmin_loop fuel' fn maxfev alpha maxiter tol callback st'
    end
  else Some st.

(** [custmin(fun, x0, maxfev=..., alpha=..., maxiter=..., tol=...,
    callback=...)]: the result and the list [ps] afterwards. *)
Definition custmin (fn : list Q → Q) (x0 : list Q) (maxfev : option nat)
    (alpha : Q) (maxiter : nat) (tol : Q) (callback : bool)
    (ps0 : list (list Q)) : option (OptimizeResult * list (list Q)) :=
  let st0 := mk_custmin_state x0 (fn x0) 1 0 true false ps0 in
  st ← custmin_loop maxiter fn maxfev alpha maxiter tol callback st0;
  Some (mk_result (bestf st) (bestx st) (niter st) (funcalls st)
          (1 <? niter st)%nat, ps st).


(** The loop variables of [custmin] other than the stored objective value. *)
Definition custmin_path (st : custmin_state)
    : list Q * nat * nat * bool * bool * list (list Q) :=
  (bestx st, funcalls st, niter st, improved st, stop st, ps st).

End GradientDescent.

(** ** Functional programming notebook (operator, functools, itertools, toolz) *)

Module Functional.
Import Py.

(** Python objects that the examples pass around. *)
Inductive value : Type :=
  | VNone
  | VInt (n : Z)
  | VFloat (q : Q)
  | VStr (s : string).

(** [s * n] on a string: [n] copies, none when [n <= 0]. *)
Fixpoint str_repeat (s : string) (n : nat) : string :=
  match n with
  | O => EmptyString
  | S n' => (s ++ str_repeat s n')%string
  end.

(** The binary operator [a * b]; [None] is the [TypeError] of operands that
    do not support it. *)
Definition py_mul (a b : value) : option value :=
  match a, b with
  | VInt x, VInt y => Some (VInt (x * y))
  | VInt x, VFloat y => Some (VFloat (inject_Z x * y))
  | VFloat x, VInt y => Some (VFloat (x * inject_Z y))
  | VFloat x, VFloat y => Some (VFloat (x * y))
  | VStr s, VInt n => Some (VStr (str_repeat s (Z.to_nat n)))
  | VInt n, VStr s => Some (VStr (str_repeat s (Z.to_nat n)))
  | _, _ => None
  end.

(** [def foo(a: int) -> int: return a * 3]; the annotations are not
    checked when the function is called. *)
Definition foo (a : value) : option value := py_mul a (VInt 3).

(** [fib(n)]: the result and the arguments printed by the calls, in order. *)
Fixpoint fib (n : nat) : Z * list nat :=
  match n with
  | O => (0%Z, [n])
  | S O => (1%Z, [n])
  | S (S m as p) =>
      let '(a, t1) := fib m in
      let '(b, t2) := fib p in
      ((a + b)%Z, n :: t1 ++ t2)
  end.

(** [fib_cache(n)] under [lru_cache(maxsize=None)]: the cache maps an
    argument to its result; on a hit the body does not run (nothing is
    printed), on a miss the body runs and its result is stored. *)
Fixpoint fib_cache (n : nat) (cache : gmap nat Z) : Z * gmap nat Z * list nat :=
  match cache !! n with
  | Some r => (r, cache, [])
  | None =>
      let '(r, cache, t) :=
        match n with
        | O => (0%Z, cache, [])
        | S O => (1%Z, cache, [])
        | S (S m as p) =>
            let '(a, cache, t1) := fib_cache m cache in
            let '(b, cache, t2) := fib_cache p cache in
            ((a + b)%Z, cache, t1 ++ t2)
        end in
      (r, <[n:=r]> cache, n :: t)
  end.

(** Every cached entry is the value [fib] returns for its key. *)
Definition cache_ok (cache : gmap nat Z) : Prop :=
  ∀ k r, cache !! k = Some r → r = (fib k).1.

(** What a call of [fib_cache] guarantees: the value of [fib], a cache that
    is still sound, and no more runs of the body than [fib] makes. *)
Definition fib_cache_post (n : nat) (cache : gmap nat Z) : Prop :=
  (fib_cache n cache).1.1 = (fib n).1
  ∧ cache_ok (fib_cache n cache).1.2
  ∧ (length (fib_cache n cache).2 ≤ length (fib n).2)%nat.

(** List objects live in a store; a variable holds a reference. *)
Abbreviation ref := positive.
Abbreviation store := (gmap positive (list value)).

(** [list(xs)]: a new list object with the elements of [xs]. *)
Definition list_copy (h : store) (xs : ref) : option (ref * store) :=
  l ← h !! xs;
  let r := fresh (dom h) in
  Some (r, <[r:=l]> h).

(** [xs[i] = x] on the list object that [xs] refers to. *)
Definition list_set_item (h : store) (xs : ref) (i : nat) (x : value)
    : option store :=
  l ← h !! xs;
  l' ← set_item l i x;
  Some (<[xs:=l']> h).

(** [len(xs)] *)
Definition len (h : store) (xs : ref) : option nat :=
  l ← h !! xs; Some (length l).

(** The pure [f(xs)]: rebinds [xs] to a copy before the assignment. *)
Definition f (h : store) (xs : ref) : option (ref * store) :=
  n ← len h xs;
  if decide (0 < n)%nat then
    '(xs, h) ← list_copy h xs;
    h ← list_set_item h xs 0 (VStr "@");
    Some (xs, h)
  else Some (xs, h).

(** The impure [g(xs)]: assigns into the caller's list. *)
Definition g (h : store) (xs : ref) : option (ref * store) :=
  n ← len h xs;
  if decide (0 < n)%nat then
    h ← list_set_item h xs 0 (VStr "@");
    Some (xs, h)
  else Some (xs, h).

(** [xs.append(v)] on the list object that [xs] refers to. *)
Definition list_append (h : store) (xs : ref) (v : value) : option store :=
  l ← h !! xs;
  Some (<[xs:=l ++ [v]]> h).

(** [h(n, xs=[])]: the default list is one object, created when the
    function is defined and kept at the reference [dflt]; a call without
    [xs] ([None] here) uses that object. *)
Definition h (dflt : ref) (st : store) (n : Z) (xs : option ref)
    : option (ref * store) :=
  let xs := default dflt xs in
  st ← for_range (λ i st, list_append st xs (VInt (Z.of_nat i))) 0 (Z.to_nat n) st;
  Some (xs, st).

(** [list(range(n))] as objects. *)
Definition range_values (n : Z) : list value :=
  map (λ i, VInt (Z.of_nat i)) (seq 0 (Z.to_nat n)).

(** [rec_sum(xs)] on a list of integers; [xs[1:]] is the tail. *)
Fixpoint rec_sum (xs : list Z) : Z :=
  match xs with
  | [] => 0
  | x :: xs' => x + rec_sum xs'
  end.

(** The left fold of [functools.reduce], with a function that may raise. *)
Fixpoint reduce_from {A : Type} (f : A → A → option A) (acc : A) (xs : list A)
    : option A :=
  match xs with
  | [] => Some acc
  | x :: xs' => acc' ← f acc x; reduce_from f acc' xs'
  end.

(** [reduce(f, xs)] and [reduce(f, xs, init)]: without an initial value the
    first item starts the fold and an empty sequence is a [TypeError]. *)
Definition reduce {A : Type} (f : A → A → option A) (xs : list A)
    (init : option A) : option A :=
  match init, xs with
  | Some a, _ => reduce_from f a xs
  | None, x :: xs' => reduce_from f x xs'
  | None, [] => None
  end.

(** [lambda x, y: x + y] on integers and on lists. *)
Definition add_int (x y : Z) : option Z := Some (x + y)%Z.
Definition add_list {A : Type} (x y : list A) : option (list A) := Some (x ++ y).

(** Flattening with the nested loop
    [ys = []; for x in xs: for y in x: ys.append(y)]. *)
Definition flatten_loop {A : Type} (xs : list (list A)) : list A :=
  fold_left (λ ys x, fold_left (λ ys y, ys ++ [y]) x ys) xs [].

(** [fib_eager(n)]: the loop state is [(xs, a, b)]. *)
Definition fib_eager (n : nat) : option (list Z) :=
  st ← for_range (λ i '(xs, a, b), Some (xs ++ [a], b, (a + b)%Z)) 0 n ([], 1%Z, 1%Z);
  Some st.1.1.

(** The generator object made by [fib_lazy(n)]: the values of [a], [b] and
    the loop index at the point where it is suspended. *)
Record fib_gen : Type := mk_fib_gen {
  gen_n : nat;
  gen_i : nat;
  gen_a : Z;
  gen_b : Z
}.

Definition fib_lazy (n : nat) : fib_gen :=
  {| gen_n := n; gen_i := 0; gen_a := 1; gen_b := 1 |}.

(** [next(g)]: the yielded value and the generator afterwards; [None] is
    [StopIteration], after which the generator stays exhausted. *)
Definition fib_next (g : fib_gen) : option (Z * fib_gen) :=
  if decide (gen_i g < gen_n g)%nat
  then Some (gen_a g,
             {| gen_n := gen_n g; gen_i := S (gen_i g);
                gen_a := gen_b g; gen_b := (gen_a g + gen_b g)%Z |})
  else None.

(** [for v in g: ...] run to the end: the values seen and the generator
    afterwards.  At most [gen_n g - gen_i g] values are left, which bounds
    the recursion. *)
Fixpoint fib_drain (k : nat) (g : fib_gen) : list Z * fib_gen :=
  match k with
  | O => ([], g)
  | S k' =>
      match fib_next g with
      | None => ([], g)
      | Some (v, g') => let '(vs, g'') := fib_drain k' g' in (v :: vs, g'')
      end
  end.

(** [list(g)] *)
Definition fib_list (g : fib_gen) : list Z * fib_gen :=
  fib_drain (gen_n g - gen_i g) g.

End Functional.

(** ** S08B_Numba *)

Module Numba.
Import Py.

(** A two-dimensional array: its shape and its rows. *)
Record ndarray : Type := mk_ndarray {
  shape : nat * nat;
  cells : list (list Q)
}.

(** The rows agree with the shape. *)
Definition wf (A : ndarray) : Prop :=
  length (cells A) = (shape A).1
  ∧ Forall (λ row, length row = (shape A).2) (cells A).

(** [np.zeros((m, p))] *)
Definition zeros2 (m p : nat) : ndarray :=
  {| shape := (m, p); cells := replicate m (replicate p 0) |}.

(** [A[i, k]] *)
Definition get2 (A : ndarray) (i k : nat) : option Q :=
  row ← cells A !! i; row !! k.

(** [C[i, j] = v] *)
Definition set2 (C : ndarray) (i j : nat) (v : Q) : option ndarray :=
  row ← cells C !! i;
  row' ← set_item row j v;
  Some {| shape := shape C; cells := <[i:=row']> (cells C) |}.

(** The entry [A[i, k]] of a well-formed array, as a number. *)
Definition entry (A : ndarray) (i k : nat) : Q :=
  nth k (nth i (cells A) []) 0.

(** The first [k] terms of the sum that defines entry [(i, j)] of the
    product of [A] and [B]. *)
Definition dot (A B : ndarray) (i j k : nat) : Q :=
  Qsum (λ t, entry A i t * entry B t j) k.

(** [C[i,j] += A[i,k] * B[k, j]] *)
Definition matrix_multiply_step (A B : ndarray) (i j k : nat) (C : ndarray)
    : option ndarray :=
  a ← get2 A i k;
  b ← get2 B k j;
  c ← get2 C i j;
  set2 C i j (c + a * b).

(** [matrix_multiply(A, B)]; the second unpacking rebinds [n] to the
    number of rows of [B]. *)
Definition matrix_multiply (A B : ndarray) : option ndarray :=
  let '(m, n) := shape A in
  let '(n, p) := shape B in
  let C := zeros2 m p in
  for_range (λ i C,
    for_range (λ j C,
      for_range (λ k C, matrix_multiply_step A B i j k C) 0 n C) 0 p C) 0 m C.

(** [matrix_multiply_numba2(A, B)] (the same code is compiled as
    [matrix_multiply_numba_1]): the sum is built in the local [d] and
    written once. *)
Definition matrix_multiply_numba2 (A B : ndarray) : option ndarray :=
  let '(m, n) := shape A in
  let '(n, p) := shape B in
  let C := zeros2 m p in
  for_range (λ i C,
    for_range (λ j C,
      d ← for_range (λ k d, a ← get2 A i k; b ← get2 B k j; Some (d + a * b)) 0 n 0;
      set2 C i j d) 0 p C) 0 m C.

(** [A] cut down to its first [n] columns. *)
Definition first_columns (n : nat) (A : ndarray) : ndarray :=
  {| shape := ((shape A).1, n); cells := map (take n) (cells A) |}.

(** The Python body of [nb_inner1d(u, v, res)]: the array [res] after it
    has run. *)
Definition nb_inner1d_body (u v res : list Q) : option (list Q) :=
  res ← set_item res 0 0;
  for_range (λ i res,
    ui ← get_item u i;
    vi ← get_item v i;
    r ← get_item res 0;
    set_item res 0 (r + ui * vi)) 0 (length u) res.

(** One run of the body under [guvectorize]: the layout [(n),(n)->()]
    makes the output a scalar, which the body sees as an array [res] with
    the single slot [res[0]].  The caller never passes [res]: the slot is
    allocated for the call and not cleared, so it holds some [junk]; the
    value left in it is the result. *)
Definition inner1d_core (junk : Q) (u v : list Q) : option Q :=
  res ← nb_inner1d_body u v [junk];
  get_item res 0.

(** [nb_inner1d(u, v)] on two one-dimensional arrays: by the layout
    [(n),(n)->()] both must have the same length [n], or the call raises
    [ValueError] before the body runs. *)
Definition nb_inner1d (junk : Q) (u v : list Q) : option Q :=
  if decide (length u = length v) then inner1d_core junk u v else None.

(** The pairs of rows a call on two matrices loops over.  The last axis
    is the core dimension [n] of the layout and must agree; the leading
    axis is broadcast: equal numbers of rows pair up, and a single row is
    paired with every row of the other matrix. *)
Definition broadcast_rows (A B : ndarray) : option (list (list Q * list Q)) :=
  let '(mA, nA) := shape A in
  let '(mB, nB) := shape B in
  if decide (nA = nB) then
    if decide (mA = mB) then Some (zip (cells A) (cells B))
    else if decide (mA = 1%nat)
         then Some (map (λ v, (nth 0 (cells A) [], v)) (cells B))
    else if decide (mB = 1%nat)
         then Some (map (λ u, (u, nth 0 (cells B) [])) (cells A))
    else None
  else None.

(** The loop of the compiled function over the pairs of rows; pair [i]
    writes slot [i] of the output. *)
Fixpoint gufunc_loop (junk : nat → Q) (i : nat) (rows : list (list Q * list Q))
    : option (list Q) :=
  match rows with
  | [] => Some []
  | (u, v) :: rest =>
      r ← inner1d_core (junk i) u v;
      rs ← gufunc_loop junk (S i) rest;
      Some (r :: rs)
  end.

(** [nb_inner1d(A, B)] on two matrices, as in [nb_inner1d(xs, xs)]: one
    scalar for each pair of rows. *)
Definition nb_inner1d_rows (junk : nat → Q) (A B : ndarray) : option (list Q) :=
  rows ← broadcast_rows A B;
  gufunc_loop junk 0 rows.

(** The vectorized [mc_pi(n)]: [np.random.uniform(-1, 1, (n, 2))] fills the
    rows in order from the generator and raises for a negative [n];
    [(x**2).sum(1) < 1] is tested row by row and [np.sum] counts the rows
    that pass. *)
Definition mc_pi_rows (n : nat) (draws : nat → Q) : list (Q * Q) :=
  map (λ i, (draws (2 * i)%nat, draws (S (2 * i)))) (seq 0 n).

Definition inside (row : Q * Q) : bool :=
  if Qlt_le_dec (row.1 ^ 2 + row.2 ^ 2) 1 then true else false.

Definition mc_pi (n : Z) (draws : nat → Q) : option Q :=
  if decide (n < 0)%Z then None
  else
    let x := mc_pi_rows (Z.to_nat n) draws in
    div (inject_Z (4 * Z.of_nat (length (filter (λ row, inside row = true) x))))
        (inject_Z n).

(** [mc_pi_numba_unrolled(n)] (and its cached copy): the loop of the
    parallel notebook with [x*x + y*y] for the squares. *)
Definition mc_pi_unrolled_body (draws : nat → Q) (i : nat) (st : Z * nat)
    : option (Z * nat) :=
  let '(s, pos) := st in
  let x := draws pos in
  let pos := S pos in
  let y := draws pos in
  let pos := S pos in
  if Qlt_le_dec (x * x + y * y) 1 then Some ((s + 1)%Z, pos) else Some (s, pos).

Definition mc_pi_numba_unrolled (n : Z) (draws : nat → Q) : option Q :=
  st ← for_range (mc_pi_unrolled_body draws) 0 (Z.to_nat n) (0%Z, 0%nat);
  div (inject_Z (4 * st.1)) (inject_Z n).

(** Complex numbers as pairs [(real, imag)]; [z*z + c]. *)
Definition csquare_add (z c : Q * Q) : Q * Q :=
  (z.1 * z.1 - z.2 * z.2 + c.1, z.1 * z.2 + z.2 * z.1 + c.2).

(** The loop of [mandel] from iteration [i] on, with [k] iterations left. *)
Fixpoint mandel_from (c z : Q * Q) (i k : nat) : nat :=
  match k with
  | O => i
  | S k' =>
      let z := csquare_add z c in
      if Qlt_le_dec (z.1 * z.1 + z.2 * z.2) 4
      then mandel_from c z (S i) k'
      else i
  end.

(** [mandel(x, y, max_iters)]; when the loop ends without escape the index
    has reached [max_iters], which is returned. *)
Definition mandel (x y : Q) (max_iters : nat) : nat :=
  mandel_from (x, y) (0, 0) 0 max_iters.

End Numba.

(** ** S07A_Parallel *)

Module Parallel.
Import Py.

(** [np.random.uniform(-1, 1)]: the generator is a sequence of draws and
    a position in it. *)
Definition uniform (draws : nat → Q) (pos : nat) : Q * nat :=
  (draws pos, S pos).

(** The loop body of [mc_pi]; the state is the hit counter [s] and the
    position of the generator. *)
Definition mc_pi_body (draws : nat → Q) (i : nat) (st : Z * nat)
    : option (Z * nat) :=
  let '(s, pos) := st in
  let '(x, pos) := uniform draws pos in
  let '(y, pos) := uniform draws pos in
  if Qlt_le_dec (x ^ 2 + y ^ 2) 1 then Some ((s + 1)%Z, pos) else Some (s, pos).

(** [mc_pi(n)]: [range(n)] is empty for [n <= 0]; [4*s/n] is a true
    division. *)
Definition mc_pi (n : Z) (draws : nat → Q) : option Q :=
  st ← for_range (mc_pi_body draws) 0 (Z.to_nat n) (0%Z, 0%nat);
  div (inject_Z (4 * st.1)) (inject_Z n).

(** The shared counter.  A worker process runs its task as a sequence of
    atomic actions on the shared [Value] and [Lock]; [val.value += 1] is a
    read of the value followed by a write of the incremented copy. *)
Inductive instr : Type := Acquire | Load | Store | Release.

Global Instance instr_eq_dec : EqDecision instr.
Proof. solve_decision. Defined.

(** [count_with_value(i)] *)
Definition count_with_value : list instr := [Load; Store].

(** [count_with_lock(i)] *)
Definition count_with_lock : list instr := [Acquire; Load; Store; Release].

(** A worker: what is left of its current task and the value it read. *)
Record worker : Type := mk_worker {
  code : list instr;
  tmp : Z
}.

(** The pool: the shared value, the lock, the number of tasks not yet
    handed out, and the workers. *)
Record pool : Type := mk_pool {
  val : Z;
  lock : bool;
  pending : nat;
  workers : list worker
}.

(** [Value('i', 0)], a free lock, [tasks] calls to make, [procs] idle workers. *)
Definition init (procs tasks : nat) : pool :=
  {| val := 0; lock := false; pending := tasks;
     workers := replicate procs {| code := []; tmp := 0 |} |}.

(** Worker [i] makes its next move: an idle worker takes a pending task,
    a busy one runs the next action of its task.  [None]: the worker
    cannot move now (nothing to take, or the lock is held by another). *)
Definition step (task : list instr) (i : nat) (P : pool) : option pool :=
  w ← workers P !! i;
  match code w with
  | [] =>
      match pending P with
      | O => None
      | S k => Some {| val := val P; lock := lock P; pending := k;
                       workers := <[i:={| code := task; tmp := tmp w |}]> (workers P) |}
      end
  | Acquire :: c =>
      if lock P then None
      else Some {| val := val P; lock := true; pending := pending P;
                   workers := <[i:={| code := c; tmp := tmp w |}]> (workers P) |}
  | Load :: c =>
      Some {| val := val P; lock := lock P; pending := pending P;
              workers := <[i:={| code := c; tmp := val P |}]> (workers P) |}
  | Store :: c =>
      Some {| val := (tmp w + 1)%Z; lock := lock P; pending := pending P;
              workers := <[i:={| code := c; tmp := tmp w |}]> (workers P) |}
  | Release :: c =>
      if lock P
      then Some {| val := val P; lock := false; pending := pending P;
                   workers := <[i:={| code := c; tmp := tmp w |}]> (workers P) |}
      else None
  end.

(** An interleaving is the sequence of workers that move. *)
Fixpoint run (task : list instr) (sched : list nat) (P : pool) : option pool :=
  match sched with
  | [] => Some P
  | i :: sched' => P' ← step task i P; run task sched' P'
  end.

(** [pool.map] has returned: every task was handed out and completed. *)
Definition finished (P : pool) : Prop :=
  pending P = O ∧ Forall (λ w, code w = []) (workers P).

(** Bookkeeping on the remaining code of a worker running
    [count_with_lock]: whether its increment is still to be written, and
    whether it holds the lock. *)
Definition owed (c : list instr) : Z :=
  if decide (c = [Acquire; Load; Store; Release]
             ∨ c = [Load; Store; Release]
             ∨ c = [Store; Release]) then 1 else 0.

Definition holds (c : list instr) : Z :=
  if decide (c = [Load; Store; Release]
             ∨ c = [Store; Release]
             ∨ c = [Release]) then 1 else 0.

(** What can be left of a task [count_with_lock]. *)
Definition code_ok (c : list instr) : Prop :=
  c = [] ∨ c = [Acquire; Load; Store; Release]
  ∨ c = [Load; Store; Release] ∨ c = [Store; Release]
  ∨ c = [Release].

Definition Zsum (g : list instr → Z) (ws : list worker) : Z :=
  foldr (λ w acc, (g (code w) + acc)%Z) 0%Z ws.

(** The invariant of the locked counter with [tasks] calls in total. *)
Definition lock_inv (tasks : nat) (P : pool) : Prop :=
  (∀ i w, workers P !! i = Some w → code_ok (code w))
  ∧ (val P + Z.of_nat (pending P) + Zsum owed (workers P) = Z.of_nat tasks)%Z
  ∧ Zsum holds (workers P) = (if lock P then 1 else 0)%Z
  ∧ (∀ i w, workers P !! i = Some w → code w = [Store; Release] → tmp w = val P).

(** Bookkeeping for [count_with_value]: whether the increment of the
    current call is still to be written. *)
Definition unwritten (c : list instr) : Z :=
  if decide (c = [Load; Store] ∨ c = [Store]) then 1 else 0.

(** The invariant of the unlocked counter with [tasks] calls in total: no
    more increments are ever visible than calls have been written, also
    counting what a worker that has read is about to write. *)
Definition value_inv (tasks : nat) (P : pool) : Prop :=
  (∀ i w, workers P !! i = Some w →
     code w = [] ∨ code w = [Load; Store] ∨ code w = [Store])
  ∧ (0 ≤ val P)%Z
  ∧ (val P + Z.of_nat (pending P) + Zsum unwritten (workers P) ≤ Z.of_nat tasks)%Z
  ∧ (∀ i w, workers P !! i = Some w → code w = [Store] →
       (0 ≤ tmp w)%Z
       ∧ (tmp w + Z.of_nat (pending P) + Zsum unwritten (workers P) ≤ Z.of_nat tasks)%Z)
  ∧ ((1 ≤ val P)%Z
     ∨ (Z.of_nat (pending P) + Zsum unwritten (workers P) = Z.of_nat tasks)%Z).

(** The number of moves still to be made before the map returns, for
    calls that each run [task]. *)
Definition moves_left (task : list instr) (P : pool) : Z :=
  (Z.of_nat (S (length task)) * Z.of_nat (pending P)
   + Zsum (λ c, Z.of_nat (length c)) (workers P))%Z.

(** The number of calls [pool.map] packs into one task when no
    [chunksize] is given: [divmod(len(iterable), 4 * processes)], rounded
    up.  A worker runs the calls of a task back to back, so a move of an
    idle worker in [step] is the taking of one call exactly when this
    is 1. *)
Definition map_chunksize (procs tasks : nat) : nat :=
  if decide (tasks = 0)%nat then 0%nat
  else if decide (tasks mod (procs * 4) = 0)%nat
       then (tasks / (procs * 4))%nat
       else S (tasks / (procs * 4)).

End Parallel.

(** * Properties *)

(** ** Loops *)

Section ForRange.
Context {St : Type} (body : nat → St → option St).

(** The loop rule: an invariant kept by every iteration in range holds at
    the end, and the loop does not raise. *)
Lemma for_range_inv (Inv : nat → St → Prop) (lo n : nat) (s : St) :
  Inv lo s →
  (∀ i st, (lo ≤ i < lo + n)%nat → Inv i st →
     ∃ st', body i st = Some st' ∧ Inv (S i) st') →
  ∃ s', Py.for_range body lo n s = Some s' ∧ Inv (lo + n)%nat s'.
Proof.
  revert lo s; induction n as [|n IH]; intros lo s H0 Hstep.
  - exists s. rewrite Nat.add_0_r. split; [reflexivity|assumption].
  - destruct (Hstep lo s ltac:(lia) H0) as (s1 & E1 & H1).
    destruct (IH (S lo) s1 H1) as (s' & E' & H').
    { intros i st Hi. apply Hstep. lia. }
    exists s'. simpl. rewrite E1. simpl. split; [exact E'|].
    replace (lo + S n)%nat with (S lo + n)%nat by lia. exact H'.
Qed.

End ForRange.

(** ** Indexing, division, powers and sums *)

Section Runtime.
Import Py.

Lemma set_item_Some {A : Type} (xs : list A) (i : nat) (x : A) :
  (i < length xs)%nat → set_item xs i x = Some (<[i:=x]> xs).
Proof. intros H. unfold set_item. destruct (decide _); [reflexivity|lia]. Qed.

Lemma lookup_nth_lt {A : Type} (xs : list A) (i : nat) (d : A) :
  (i < length xs)%nat → xs !! i = Some (nth i xs d).
Proof.
  intros H. destruct (lookup_lt_is_Some_2 xs i H) as [x Hx].
  rewrite Hx. f_equal. symmetry. apply nth_lookup_Some with (d := d) in Hx. exact Hx.
Qed.

Lemma div_Some (a b : Q) : ¬ b == 0 → div a b = Some (a / b).
Proof. intros H. unfold div. destruct (Qeq_dec b 0); [contradiction|reflexivity]. Qed.

Lemma pow_0 (b : Q) : pow b 0 = 1.
Proof. reflexivity. Qed.

Lemma pow_S (b : Q) (k : nat) : pow b (S k) == b * pow b k.
Proof.
  unfold pow. rewrite Nat2Z.inj_succ. unfold Z.succ.
  rewrite Qpower_plus' by lia. change (b ^ 1) with (Qpower_positive b 1).
  simpl. ring.
Qed.

Lemma pow_pos_lt_1 (b : Q) (k : nat) : 0 < b → b < 1 → 0 < pow b (S k) ∧ pow b (S k) < 1.
Proof.
  intros H0 H1. induction k as [|k [IH0 IH1]].
  - rewrite pow_S, pow_0. split; lra.
  - rewrite (pow_S b (S k)). split; nra.
Qed.

Lemma pow_mult (a b : Q) (k : nat) : pow (a * b) k == pow a k * pow b k.
Proof.
  induction k as [|k IH]; [rewrite !pow_0; ring|].
  rewrite !pow_S, IH. ring.
Qed.

Lemma pow_nonneg (b : Q) (k : nat) : 0 <= b → 0 <= pow b k.
Proof.
  intros H. induction k as [|k IH]; [rewrite pow_0; lra|].
  rewrite pow_S. nra.
Qed.

Lemma pow_gt_1 (b : Q) (k : nat) : 1 < b → 1 < pow b (S k).
Proof.
  intros H. induction k as [|k IH].
  - rewrite pow_S, pow_0. lra.
  - rewrite (pow_S b (S k)). nra.
Qed.

Lemma Qsum_ext (f g : nat → Q) (n : nat) :
  (∀ k, (k < n)%nat → f k == g k) → Qsum f n == Qsum g n.
Proof.
  induction n as [|n IH]; intros H; simpl; [reflexivity|].
  rewrite IH by (intros; apply H; lia). rewrite (H n) by lia. reflexivity.
Qed.

Lemma Qsum_scale (c : Q) (f : nat → Q) (n : nat) :
  Qsum (λ k, c * f k) n == c * Qsum f n.
Proof. induction n as [|n IH]; simpl; [ring|]. rewrite IH. ring. Qed.

Lemma nth_map_seq (g : nat → Q) (n i : nat) :
  (i < n)%nat → nth i (map g (seq 0 n)) 0 = g i.
Proof.
  intros Hi. apply nth_lookup_Some with (d := 0). rewrite list_lookup_fmap.
  rewrite lookup_seq_lt by exact Hi. reflexivity.
Qed.

Lemma Qsq_nonneg (x : Q) : 0 <= x * x.
Proof. nra. Qed.

End Runtime.

(** ** Exponentially weighted averages *)

Section Ewa.
Import Py GradientDescent.

Lemma ewa_loop (y : list Q) (beta : Q) :
  ∃ st, for_range (ewa_body y beta) 0 (length y) (0, zeros (length y)) = Some st
    ∧ st.1 = ewa_z y beta (length y)
    ∧ length st.2 = length y
    ∧ ∀ k, (k < length y)%nat → st.2 !! k = Some (ewa_z y beta (S k)).
Proof.
  set (n := length y).
  destruct (for_range_inv (ewa_body y beta)
    (λ i st, st.1 = ewa_z y beta i ∧ length st.2 = n
       ∧ ∀ k, (k < i)%nat → st.2 !! k = Some (ewa_z y beta (S k)))
    0 n (0, zeros n)) as (st & E & Hz & Hl & Hk).
  - simpl. split; [reflexivity|]. split; [apply length_replicate|]. intros; lia.
  - intros i [z zs] Hi (Hz & Hl & Hk); simpl in *. subst z.
    unfold ewa_body, get_item.
    rewrite (lookup_nth_lt y i 0) by (fold n; lia). simpl.
    rewrite set_item_Some by lia. simpl.
    eexists; split; [reflexivity|]. simpl.
    split; [reflexivity|]. split; [rewrite length_insert; exact Hl|].
    intros k Hk'. destruct (decide (k = i)) as [->|Hne].
    + rewrite list_lookup_insert_eq by lia. reflexivity.
    + rewrite list_lookup_insert_ne by lia. apply Hk. lia.
  - exists st. simpl in *. auto.
Qed.

Lemma ewa_spec (y : list Q) (beta : Q) :
  ewa y beta = Some (map (λ k, ewa_z y beta (S k)) (seq 0 (length y))).
Proof.
  destruct (ewa_loop y beta) as ([z zs] & E & _ & Hl & Hk); simpl in *.
  unfold ewa. rewrite E. simpl. f_equal.
  apply list_eq. intros k. rewrite list_lookup_fmap.
  destruct (decide (k < length y)%nat) as [H|H].
  - rewrite Hk by exact H. rewrite lookup_seq_lt by exact H. reflexivity.
  - rewrite lookup_ge_None_2 by lia. rewrite lookup_seq_ge by lia. reflexivity.
Qed.

Lemma ewabc_loop (y : list Q) (beta : Q) :
  (∀ k, (k < length y)%nat → ¬ 1 - pow beta (k + 1) == 0) →
  ∃ st, for_range (ewabc_body y beta) 0 (length y) (0, zeros (length y)) = Some st
    ∧ length st.2 = length y
    ∧ ∀ k, (k < length y)%nat →
        st.2 !! k = Some (ewa_z y beta (S k) / (1 - pow beta (k + 1))).
Proof.
  intros Hnz. set (n := length y).
  destruct (for_range_inv (ewabc_body y beta)
    (λ i st, st.1 = ewa_z y beta i ∧ length st.2 = n
       ∧ ∀ k, (k < i)%nat →
           st.2 !! k = Some (ewa_z y beta (S k) / (1 - pow beta (k + 1))))
    0 n (0, zeros n)) as (st & E & Hz & Hl & Hk).
  - simpl. split; [reflexivity|]. split; [apply length_replicate|]. intros; lia.
  - intros i [z zs] Hi (Hz & Hl & Hk); simpl in *. subst z.
    unfold ewabc_body, get_item.
    rewrite (lookup_nth_lt y i 0) by (fold n; lia). simpl.
    rewrite div_Some by (apply Hnz; fold n; lia). simpl.
    rewrite set_item_Some by lia. simpl.
    eexists; split; [reflexivity|]. simpl.
    split; [reflexivity|]. split; [rewrite length_insert; exact Hl|].
    intros k Hk'. destruct (decide (k = i)) as [->|Hne].
    + rewrite list_lookup_insert_eq by lia. reflexivity.
    + rewrite list_lookup_insert_ne by lia. apply Hk. lia.
  - exists st. simpl in *. auto.
Qed.

(** C2: for 0 < beta < 1 both averages return, and at every index t the
    bias-corrected value ewabc(y, beta)[t] is ewa(y, beta)[t] divided by
    1 - beta^(t+1). *)
Theorem ewabc_rescales_ewa (y : list Q) (beta : Q) :
  0 < beta → beta < 1 →
  ∃ zs zc, ewa y beta = Some zs ∧ ewabc y beta = Some zc
    ∧ length zs = length y ∧ length zc = length y
    ∧ ∀ t, (t < length y)%nat →
        ∃ a, zs !! t = Some a ∧ zc !! t = Some (a / (1 - pow beta (t + 1))).
Proof.
  intros H0 H1.
  destruct (ewa_loop y beta) as ([z zs] & E & _ & Hl & Hk); simpl in *.
  destruct (ewabc_loop y beta) as ([z' zc] & E' & Hl' & Hk'); simpl in *.
  { intros k _. replace (k + 1)%nat with (S k) by lia.
    destruct (pow_pos_lt_1 beta k H0 H1). lra. }
  exists zs, zc. unfold ewa, ewabc. rewrite E, E'. simpl.
  repeat split; auto.
  intros t Ht. exists (ewa_z y beta (S t)). split; [apply Hk|apply Hk']; exact Ht.
Qed.

Lemma ewabc_rescales_ewa_witness :
  ∃ zs zc, ewa [1; 2; 4] 0.5 = Some zs ∧ ewabc [1; 2; 4] 0.5 = Some zc
    ∧ length zs = 3%nat ∧ length zc = 3%nat
    ∧ ∀ t, (t < 3)%nat →
        ∃ a, zs !! t = Some a ∧ zc !! t = Some (a / (1 - pow 0.5 (t + 1))).
Proof. apply (ewabc_rescales_ewa [1; 2; 4] 0.5); reflexivity. Defined.

(** At beta = 1 the correction divides by zero and ewabc raises on any
    non-empty input. *)
Lemma ewabc_beta_one (y0 : Q) (y : list Q) : ewabc (y0 :: y) 1 = None.
Proof. reflexivity. Qed.

Lemma nth_lincomb (a b : Q) (y z : list Q) (k : nat) :
  length y = length z →
  nth k (lincomb a y b z) 0 == a * nth k y 0 + b * nth k z 0.
Proof.
  revert z k; induction y as [|u y IH]; intros [|w z] k Hlen; simpl in Hlen; try lia.
  - destruct k; simpl; ring.
  - destruct k as [|k]; simpl; [reflexivity|]. apply IH. lia.
Qed.

Lemma ewa_z_lincomb (a b beta : Q) (y z : list Q) (k : nat) :
  length y = length z →
  ewa_z (lincomb a y b z) beta k == a * ewa_z y beta k + b * ewa_z z beta k.
Proof.
  intros Hlen. induction k as [|k IH]; simpl; [ring|].
  rewrite IH, nth_lincomb by exact Hlen. ring.
Qed.

Lemma ewa_z_closed (beta : Q) (y : list Q) (i : nat) :
  ewa_z y beta (S i)
  == (1 - beta) * Qsum (λ k, pow beta (i - k) * nth k y 0) (S i).
Proof.
  induction i as [|i IH].
  - simpl. rewrite pow_0. ring.
  - change (ewa_z y beta (S (S i)))
      with (beta * ewa_z y beta (S i) + (1 - beta) * nth (S i) y 0).
    rewrite IH.
    change (Qsum (λ k, pow beta (S i - k) * nth k y 0) (S (S i)))
      with (Qsum (λ k, pow beta (S i - k) * nth k y 0) (S i)
            + pow beta (S i - S i) * nth (S i) y 0).
    rewrite Nat.sub_diag, pow_0.
    rewrite (Qsum_ext (λ k, pow beta (S i - k) * nth k y 0)
               (λ k, beta * (pow beta (i - k) * nth k y 0)) (S i)).
    + rewrite Qsum_scale. ring.
    + intros k Hk. replace (S i - k)%nat with (S (i - k)) by lia.
      rewrite pow_S. ring.
Qed.

Lemma length_lincomb (a b : Q) (y z : list Q) :
  length y = length z → length (lincomb a y b z) = length y.
Proof. intros H. unfold lincomb. rewrite length_zip_with. lia. Qed.

(** C3: ewa is a linear filter.  For inputs y and z of one length, ewa of
    a*y + b*z is, element by element, a*ewa(y) + b*ewa(z); and element i of
    ewa(y, beta) is (1 - beta) * sum over k = 0..i of beta^(i-k) * y[k]. *)
Theorem ewa_linear_filter (beta a b : Q) (y z : list Q) :
  length y = length z →
  ∃ ey ez el, ewa y beta = Some ey ∧ ewa z beta = Some ez
    ∧ ewa (lincomb a y b z) beta = Some el
    ∧ length ey = length y ∧ length el = length y
    ∧ ∀ i, (i < length y)%nat →
        nth i el 0 == a * nth i ey 0 + b * nth i ez 0
        ∧ nth i ey 0 == (1 - beta) * Qsum (λ k, pow beta (i - k) * nth k y 0) (S i).
Proof.
  intros Hlen.
  pose proof (length_lincomb a b y z Hlen) as Hll.
  exists (map (λ k, ewa_z y beta (S k)) (seq 0 (length y))),
         (map (λ k, ewa_z z beta (S k)) (seq 0 (length z))),
         (map (λ k, ewa_z (lincomb a y b z) beta (S k))
              (seq 0 (length (lincomb a y b z)))).
  repeat split; try apply ewa_spec.
  - rewrite length_map, length_seq. reflexivity.
  - rewrite length_map, length_seq. exact Hll.
  - rewrite !nth_map_seq by lia. apply ewa_z_lincomb. exact Hlen.
  - rewrite nth_map_seq by lia. apply ewa_z_closed.
Qed.

Lemma ewa_linear_filter_witness :
  ∃ ey ez el, ewa [1; 2; 4] 0.9 = Some ey ∧ ewa [3; 0; -1] 0.9 = Some ez
    ∧ ewa (lincomb 2 [1; 2; 4] 5 [3; 0; -1]) 0.9 = Some el
    ∧ length ey = 3%nat ∧ length el = 3%nat
    ∧ ∀ i, (i < 3)%nat →
        nth i el 0 == 2 * nth i ey 0 + 5 * nth i ez 0
        ∧ nth i ey 0 == (1 - 0.9) * Qsum (λ k, pow 0.9 (i - k) * nth k [1; 2; 4] 0) (S i).
Proof. apply (ewa_linear_filter 0.9 2 5 [1; 2; 4] [3; 0; -1]); reflexivity. Defined.

End Ewa.

(** ** Gradient descent with momentum *)

Section Momentum.
Import Py GradientDescent.

(** The divisor [1 + beta**(i+1)] of the loop vanishes only for beta = -1. *)
Lemma momentum_divisor_nonzero (beta : Q) (i : nat) :
  ¬ beta == -1 → ¬ 1 + pow beta (i + 1) == 0.
Proof.
  intros Hb Hz. replace (i + 1)%nat with (S i) in Hz by lia.
  assert (Hsq : pow (beta * beta) (S i) == 1).
  { rewrite pow_mult. nra. }
  destruct (Qlt_le_dec (beta * beta) 1) as [Hlt|Hge].
  - destruct (Qlt_le_dec 0 (beta * beta)) as [Hpos|Hnp].
    + destruct (pow_pos_lt_1 (beta * beta) i Hpos Hlt). lra.
    + assert (beta == 0) by nra.
      rewrite pow_S in Hz. nra.
  - destruct (Qlt_le_dec 1 (beta * beta)) as [Hgt|Hle].
    + pose proof (pow_gt_1 (beta * beta) i Hgt). lra.
    + assert (Hb1 : beta * beta == 1) by lra.
      assert (Hc : (beta - 1) * (beta + 1) == 0) by nra.
      destruct (Qmult_integral _ _ Hc) as [H1|H1]; [|apply Hb; lra].
      assert (Hone : beta == 1) by lra.
      assert (0 <= pow beta (S i)) by (apply pow_nonneg; lra). lra.
Qed.

Lemma gd_momentum_loop (x : Q) (grad : Q → Q) (alpha beta : Q) (max_iter : nat) (xs0 : list Q) :
  ¬ beta == -1 →
  length xs0 = S max_iter → xs0 !! 0%nat = Some x →
  ∃ st, for_range (gd_momentum_body grad alpha beta) 0 max_iter (x, 0, xs0) = Some st
    ∧ length st.2 = S max_iter
    ∧ ∀ k, (k ≤ max_iter)%nat →
        st.2 !! k = Some (gd_momentum_state x grad alpha beta k).1.
Proof.
  intros Hb Hl0 Hx0.
  destruct (for_range_inv (gd_momentum_body grad alpha beta)
    (λ i st, (st.1.1, st.1.2) = gd_momentum_state x grad alpha beta i
       ∧ length st.2 = S max_iter
       ∧ ∀ k, (k ≤ i)%nat → st.2 !! k = Some (gd_momentum_state x grad alpha beta k).1)
    0 max_iter (x, 0, xs0)) as (st & E & _ & Hl & Hk).
  - simpl. split; [reflexivity|]. split; [exact Hl0|].
    intros k Hk. replace k with 0%nat by lia. exact Hx0.
  - intros i [[xi vi] xs] Hi (Hst & Hl & Hk); simpl in *.
    unfold gd_momentum_body.
    rewrite div_Some by (apply momentum_divisor_nonzero; exact Hb). simpl.
    rewrite set_item_Some by lia. simpl.
    eexists; split; [reflexivity|]. simpl.
    split; [rewrite <- Hst; reflexivity|].
    split; [rewrite length_insert; exact Hl|].
    intros k Hk'. destruct (decide (k = S i)) as [->|Hne].
    + replace (i + 1)%nat with (S i) by lia.
      rewrite list_lookup_insert_eq by lia. simpl.
      rewrite <- Hst. replace (i + 1)%nat with (S i) by lia. reflexivity.
    + rewrite list_lookup_insert_ne by lia. apply Hk. lia.
  - exists st. auto.
Qed.

Lemma gd_momentum_spec (x : Q) (grad : Q → Q) (alpha beta : Q) (max_iter : nat) :
  ¬ beta == -1 →
  gd_momentum x grad alpha beta max_iter
  = Some (map (λ k, (gd_momentum_state x grad alpha beta k).1) (seq 0 (S max_iter))).
Proof.
  intros Hb. unfold gd_momentum.
  rewrite set_item_Some by (unfold zeros; rewrite length_replicate; lia). simpl.
  destruct (gd_momentum_loop x grad alpha beta max_iter
              (<[0%nat:=x]> (zeros (1 + max_iter))) Hb) as (st & E & Hl & Hk).
  - rewrite length_insert. apply length_replicate.
  - reflexivity.
  - assert (Hst : st.2 = map (λ k, (gd_momentum_state x grad alpha beta k).1)
                             (seq 0 (S max_iter))).
    { apply list_eq. intros k. rewrite list_lookup_fmap.
      destruct (decide (k ≤ max_iter)%nat) as [H|H].
      + rewrite Hk by exact H. rewrite lookup_seq_lt by lia. reflexivity.
      + rewrite lookup_ge_None_2 by lia. rewrite lookup_seq_ge by lia. reflexivity. }
    simpl in E. rewrite E. simpl. rewrite Hst. reflexivity.
Qed.

Lemma velocity_state (x : Q) (grad : Q → Q) (alpha beta : Q) (n k : nat) :
  (k ≤ n)%nat →
  velocity grad beta
    (map (λ j, (gd_momentum_state x grad alpha beta j).1) (seq 0 (S n))) k
  = (gd_momentum_state x grad alpha beta k).2.
Proof.
  induction k as [|k IH]; intros Hk; [reflexivity|].
  cbn [velocity gd_momentum_state]. rewrite IH by lia.
  rewrite nth_map_seq by lia.
  destruct (gd_momentum_state x grad alpha beta k) as [xk vk]. reflexivity.
Qed.

(** What the loop does on every input, over exact rationals (where a
    power never overflows): unless beta is -1, gd_momentum returns
    1 + max_iter rows, row 0 is x, and row i+1 is row i minus alpha times
    vc = v / (1 + beta^(i+1)), where v follows
    v ← beta*v + (1 - beta)*grad(x) along the rows. *)
Lemma gd_momentum_rows (x : Q) (grad : Q → Q) (alpha beta : Q) (max_iter : nat) :
  ¬ beta == -1 →
  ∃ xs, gd_momentum x grad alpha beta max_iter = Some xs
    ∧ length xs = S max_iter
    ∧ nth 0 xs 0 = x
    ∧ ∀ i, (i < max_iter)%nat →
        nth (S i) xs 0
        = nth i xs 0 - alpha * (velocity grad beta xs (S i) / (1 + pow beta (i + 1))).
Proof.
  intros Hb. eexists. split; [apply gd_momentum_spec; exact Hb|].
  split; [rewrite length_map, length_seq; reflexivity|].
  split; [reflexivity|].
  intros i Hi. rewrite velocity_state by lia. rewrite !nth_map_seq by lia.
  cbn [gd_momentum_state].
  destruct (gd_momentum_state x grad alpha beta i) as [xi vi]. reflexivity.
Qed.

(** C1: the code does not make the stated step x ← x - alpha*v.  On the
    notebook's own example, gd_momentum(1, grad, 0.95, 0.9, 1) with
    grad(x) = 2x, the velocity of the stated recurrence after one iteration
    is v = 0.2, so the stated step gives the row 1 - 0.95*0.2 = 0.81; the
    call records 0.9, which is 1 - 0.95 * v / (1 + 0.9): the loop divides v
    by 1 + beta^(i+1) before it steps. *)
Lemma gd_momentum_plain_update_fails :
  ∃ xs, gd_momentum 1 grad 0.95 0.9 1 = Some xs
    ∧ nth 1 xs 0 == 0.9
    ∧ velocity grad 0.9 xs 1 == 0.2
    ∧ ¬ nth 1 xs 0 == nth 0 xs 0 - 0.95 * velocity grad 0.9 xs 1
    ∧ nth 1 xs 0 == nth 0 xs 0 - 0.95 * (velocity grad 0.9 xs 1 / (1 + pow 0.9 1)).
Proof.
  eexists. split; [vm_compute; reflexivity|].
  repeat split; vm_compute; discriminate || reflexivity.
Qed.

(** For beta = -1 the first division is by zero and the call raises. *)
Lemma gd_momentum_beta_minus_one (x : Q) (grad : Q → Q) (alpha : Q) (n : nat) :
  gd_momentum x grad alpha (-1) (S n) = None.
Proof. reflexivity. Qed.

End Momentum.

(** ** Convergence of the momentum iteration on the quadratic bowl *)

Section Bowl.
Import Py GradientDescent.










Lemma nat_above (q : Q) : ∃ n : nat, q < inject_Z (Z.of_nat n).
Proof.
  exists (Z.to_nat (Z.max 0 (Qfloor q + 1))).
  rewrite Z2Nat.id by lia.
  apply Qlt_le_trans with (inject_Z (Qfloor q + 1)); [apply Qlt_floor|].
  rewrite <- Zle_Qle. lia.
Qed.




End Bowl.

(** ** Functional programming notebook *)

Section FunctionalProps.
Import Py Functional.

Lemma str_app_empty (s : string) : (s ++ "")%string = s.
Proof.
  induction s as [|c s IH]; [reflexivity|].
  change (String c (s ++ "")%string = String c s). f_equal. exact IH.
Qed.

(** C5 (as the code has it): the annotation of foo is not enforced; on a
    string the product a * 3 is the string repeated three times, so
    foo('oops') returns 'oopsoopsoops'. *)
Theorem foo_str_repeats :
  foo (VStr "oops") = Some (VStr "oopsoopsoops")
  ∧ ∀ s : string, foo (VStr s) = Some (VStr (s ++ s ++ s)%string).
Proof.
  split; [reflexivity|]. intros s. unfold foo, py_mul.
  change (Z.to_nat 3) with 3%nat. cbn [str_repeat].
  rewrite str_app_empty. reflexivity.
Qed.

(** C5 as stated fails: foo('oops') does not raise. *)
Lemma foo_oops_does_not_fail : foo (VStr "oops") ≠ None.
Proof. discriminate. Qed.

(** The only modelled argument on which foo raises is None. *)
Lemma foo_raises_iff (a : value) : foo a = None ↔ a = VNone.
Proof. destruct a; unfold foo, py_mul; split; intros H; congruence. Qed.

Lemma fib_value_0 : (fib 0).1 = 0%Z.
Proof. reflexivity. Qed.

Lemma fib_value_1 : (fib 1).1 = 1%Z.
Proof. reflexivity. Qed.

Lemma fib_value_SS (m : nat) : (fib (S (S m))).1 = ((fib m).1 + (fib (S m)).1)%Z.
Proof.
  change (fib (S (S m)))
    with (let '(a, t1) := fib m in
          let '(b, t2) := fib (S m) in ((a + b)%Z, S (S m) :: t1 ++ t2)).
  destruct (fib m) as [a t1], (fib (S m)) as [b t2]. reflexivity.
Qed.

Lemma fib_trace_SS (m : nat) :
  length (fib (S (S m))).2 = S (length (fib m).2 + length (fib (S m)).2).
Proof.
  change (fib (S (S m)))
    with (let '(a, t1) := fib m in
          let '(b, t2) := fib (S m) in ((a + b)%Z, S (S m) :: t1 ++ t2)).
  destruct (fib m) as [a t1], (fib (S m)) as [b t2]. simpl.
  rewrite length_app. reflexivity.
Qed.

Lemma fib_trace_pos (n : nat) : (0 < length (fib n).2)%nat.
Proof.
  destruct n as [|[|m]]; [simpl; lia|simpl; lia|]. rewrite fib_trace_SS. lia.
Qed.

Lemma cache_ok_empty : cache_ok ∅.
Proof. intros k r H. rewrite lookup_empty in H. discriminate. Qed.

Lemma cache_ok_insert (cache : gmap nat Z) (n : nat) :
  cache_ok cache → cache_ok (<[n:=(fib n).1]> cache).
Proof.
  intros Hc k r. destruct (decide (k = n)) as [->|Hne].
  - rewrite lookup_insert_eq. congruence.
  - rewrite lookup_insert_ne by congruence. apply Hc.
Qed.

Lemma fib_cache_hit (n : nat) (cache : gmap nat Z) (r : Z) :
  cache_ok cache → cache !! n = Some r → fib_cache_post n cache.
Proof.
  intros Hc H. unfold fib_cache_post.
  assert (E : fib_cache n cache = (r, cache, [])).
  { destruct n as [|[|m]]; simpl; rewrite H; reflexivity. }
  rewrite E. simpl. split; [apply Hc; exact H|]. split; [exact Hc|lia].
Qed.

Lemma fib_cache_pair (n : nat) :
  (∀ cache, cache_ok cache → fib_cache_post n cache)
  ∧ (∀ cache, cache_ok cache → fib_cache_post (S n) cache).
Proof.
  induction n as [|n [IH0 IH1]].
  - split; intros cache Hc.
    + destruct (cache !! 0%nat) as [r|] eqn:E; [exact (fib_cache_hit _ _ _ Hc E)|].
      unfold fib_cache_post. simpl. rewrite E. simpl.
      split; [reflexivity|]. split; [apply (cache_ok_insert cache 0 Hc)|lia].
    + destruct (cache !! 1%nat) as [r|] eqn:E; [exact (fib_cache_hit _ _ _ Hc E)|].
      unfold fib_cache_post. simpl. rewrite E. simpl.
      split; [reflexivity|]. split; [apply (cache_ok_insert cache 1 Hc)|lia].
  - split; [exact IH1|]. intros cache Hc.
    destruct (cache !! S (S n)) as [r|] eqn:E; [exact (fib_cache_hit _ _ _ Hc E)|].
    unfold fib_cache_post.
    change (fib_cache (S (S n)) cache)
      with (match cache !! S (S n) with
            | Some r => (r, cache, [])
            | None =>
                let '(r, cache', t) :=
                  (let '(a, cache1, t1) := fib_cache n cache in
                   let '(b, cache2, t2) := fib_cache (S n) cache1 in
                   ((a + b)%Z, cache2, t1 ++ t2)) in
                (r, <[S (S n):=r]> cache', S (S n) :: t)
            end).
    rewrite E.
    destruct (IH0 cache Hc) as (Ha & Hc1 & Ht1).
    destruct (fib_cache n cache) as [[a cache1] t1]; simpl in Ha, Hc1, Ht1.
    destruct (IH1 cache1 Hc1) as (Hb & Hc2 & Ht2).
    destruct (fib_cache (S n) cache1) as [[b cache2] t2]; simpl in Hb, Hc2, Ht2.
    cbn [fst snd]. rewrite fib_value_SS, fib_trace_SS. subst a b.
    split; [reflexivity|]. split.
    + rewrite <- fib_value_SS. apply cache_ok_insert. exact Hc2.
    + simpl. rewrite length_app. lia.
Qed.

(** C7: from any cache whose entries are values of fib (the empty cache of
    a fresh session among them), fib_cache(n) returns the value fib(n)
    returns, leaves such a cache, and runs its body no more often than fib. *)
Theorem fib_cache_agrees_with_fib (n : nat) (cache : gmap nat Z) :
  cache_ok cache →
  (fib_cache n cache).1.1 = (fib n).1
  ∧ cache_ok (fib_cache n cache).1.2
  ∧ (length (fib_cache n cache).2 ≤ length (fib n).2)%nat.
Proof. intros Hc. exact (proj1 (fib_cache_pair n) cache Hc). Qed.

Lemma fib_cache_agrees_with_fib_witness :
  (fib_cache 6 ∅).1.1 = (fib 6).1
  ∧ cache_ok (fib_cache 6 ∅).1.2
  ∧ (length (fib_cache 6 ∅).2 ≤ length (fib 6).2)%nat.
Proof. apply (fib_cache_agrees_with_fib 6 ∅). exact cache_ok_empty. Defined.

Lemma fresh_ref_unused (h : store) : h !! fresh (dom h) = None.
Proof. apply not_elem_of_dom. apply is_fresh. Qed.

(** C10: f does not mutate its argument.  After f(xs) the list that xs
    refers to, and every other list of the store, is unchanged; for a
    non-empty list the result is a new list with '@' at index 0 and the
    elements of xs at every other index; for the empty list the argument
    itself is returned and nothing changes. *)
Theorem f_does_not_mutate (h : store) (xs : ref) (l : list value) :
  h !! xs = Some l →
  ∃ r h', f h xs = Some (r, h')
    ∧ h' !! xs = Some l
    ∧ (∀ p, is_Some (h !! p) → h' !! p = h !! p)
    ∧ (l = [] → r = xs ∧ h' = h)
    ∧ (l ≠ [] → r ≠ xs ∧ ∃ l', h' !! r = Some l'
         ∧ length l' = length l
         ∧ l' !! 0%nat = Some (VStr "@")
         ∧ ∀ i, (0 < i)%nat → l' !! i = l !! i).
Proof.
  intros Hxs. unfold f, len. rewrite Hxs. simpl.
  destruct l as [|x l].
  - simpl. exists xs, h. split; [reflexivity|]. split; [exact Hxs|].
    split; [reflexivity|]. split; [intros _; split; reflexivity|].
    intros Hne; contradiction.
  - simpl. unfold list_copy. rewrite Hxs. simpl.
    set (r := fresh (dom h)).
    assert (Hr : h !! r = None) by apply fresh_ref_unused.
    assert (Hne : r ≠ xs) by (intros ->; congruence).
    unfold list_set_item. rewrite lookup_insert_eq. simpl.
    exists r, (<[r:=VStr "@" :: l]> (<[r:=x :: l]> h)).
    split; [reflexivity|].
    split; [rewrite !lookup_insert_ne by exact Hne; exact Hxs|].
    split.
    { intros p [lp Hp]. assert (r ≠ p) by (intros ->; congruence).
      rewrite !lookup_insert_ne by assumption. reflexivity. }
    split; [intros H; discriminate|].
    intros _. split; [exact Hne|].
    exists (VStr "@" :: l). rewrite lookup_insert_eq.
    repeat split. intros [|i] Hi; [lia|reflexivity].
Qed.

Lemma f_does_not_mutate_witness :
  ∃ r h', f {[ 1%positive := [VInt 1; VInt 2; VInt 3] ]} 1%positive = Some (r, h')
    ∧ h' !! 1%positive = Some [VInt 1; VInt 2; VInt 3]
    ∧ (∀ p, is_Some (({[ 1%positive := [VInt 1; VInt 2; VInt 3] ]} : store) !! p) →
         h' !! p = ({[ 1%positive := [VInt 1; VInt 2; VInt 3] ]} : store) !! p)
    ∧ ([VInt 1; VInt 2; VInt 3] = [] →
         r = 1%positive ∧ h' = {[ 1%positive := [VInt 1; VInt 2; VInt 3] ]})
    ∧ ([VInt 1; VInt 2; VInt 3] ≠ [] → r ≠ 1%positive ∧ ∃ l', h' !! r = Some l'
         ∧ length l' = length [VInt 1; VInt 2; VInt 3]
         ∧ l' !! 0%nat = Some (VStr "@")
         ∧ ∀ i, (0 < i)%nat → l' !! i = [VInt 1; VInt 2; VInt 3] !! i).
Proof.
  apply (f_does_not_mutate {[ 1%positive := [VInt 1; VInt 2; VInt 3] ]} 1%positive).
  reflexivity.
Defined.

(** By contrast g assigns into the list it was given. *)
Lemma g_mutates (h : store) (xs : ref) (x : value) (l : list value) :
  h !! xs = Some (x :: l) →
  g h xs = Some (xs, <[xs:=VStr "@" :: l]> h).
Proof. intros Hxs. unfold g, len, list_set_item. rewrite Hxs. reflexivity. Qed.

End FunctionalProps.

(** ** Monte Carlo estimate of pi *)

Section MonteCarlo.
Import Py Parallel.

Lemma mc_pi_loop (draws : nat → Q) (i : nat) :
  ∃ st, for_range (mc_pi_body draws) 0 i (0%Z, 0%nat) = Some st
    ∧ (0 ≤ st.1 ≤ Z.of_nat i)%Z.
Proof.
  destruct (for_range_inv (mc_pi_body draws)
    (λ k st, (0 ≤ st.1 ≤ Z.of_nat k)%Z) 0 i (0%Z, 0%nat)) as (st & E & H).
  - simpl. lia.
  - intros k [s pos] _ Hs; simpl in Hs. unfold mc_pi_body, uniform.
    destruct (Qlt_le_dec _ 1); eexists; (split; [reflexivity|simpl; lia]).
  - exists st. split; [exact E|exact H].
Qed.

(** C9: for n >= 1 and every sequence of draws, mc_pi(n) returns a value
    in [0, 4]; after any number i <= n of iterations the hit counter s
    satisfies 0 <= s <= i, and the final division is defined. *)
Theorem mc_pi_bounded (n : Z) (draws : nat → Q) :
  (1 ≤ n)%Z →
  (∃ r, mc_pi n draws = Some r ∧ 0 <= r ∧ r <= 4)
  ∧ ∀ i, (i ≤ Z.to_nat n)%nat →
      ∃ st, for_range (mc_pi_body draws) 0 i (0%Z, 0%nat) = Some st
        ∧ (0 ≤ st.1 ≤ Z.of_nat i)%Z ∧ (st.1 ≤ n)%Z.
Proof.
  intros Hn. split.
  - destruct (mc_pi_loop draws (Z.to_nat n)) as ([s pos] & E & Hs); simpl in Hs.
    unfold mc_pi. rewrite E. simpl.
    assert (Hpos : 0 < inject_Z n).
    { change 0 with (inject_Z 0). rewrite <- Zlt_Qlt. lia. }
    rewrite div_Some by lra.
    eexists; split; [reflexivity|]. split.
    + apply Qle_shift_div_l; [exact Hpos|].
      rewrite Qmult_0_l. change 0 with (inject_Z 0). rewrite <- Zle_Qle. lia.
    + apply Qle_shift_div_r; [exact Hpos|].
      change 4 with (inject_Z 4). rewrite <- inject_Z_mult, <- Zle_Qle. lia.
  - intros i Hi. destruct (mc_pi_loop draws i) as (st & E & Hs).
    exists st. split; [exact E|]. split; [exact Hs|lia].
Qed.

Lemma mc_pi_bounded_witness :
  (∃ r, mc_pi 4 (λ k, if Nat.even k then 0.5 else 0.9) = Some r ∧ 0 <= r ∧ r <= 4)
  ∧ ∀ i, (i ≤ Z.to_nat 4)%nat →
      ∃ st, for_range (mc_pi_body (λ k, if Nat.even k then 0.5 else 0.9)) 0 i (0%Z, 0%nat)
              = Some st
        ∧ (0 ≤ st.1 ≤ Z.of_nat i)%Z ∧ (st.1 ≤ 4)%Z.
Proof. apply (mc_pi_bounded 4 (λ k, if Nat.even k then 0.5 else 0.9)). lia. Defined.

(** Without the precondition the division is undefined: mc_pi(0) raises. *)
Lemma mc_pi_zero (draws : nat → Q) : mc_pi 0 draws = None.
Proof. reflexivity. Qed.

End MonteCarlo.

(** ** Matrix product *)

Section MatrixMultiply.
Import Py Numba.

Lemma get2_entry (A : ndarray) (i k : nat) :
  wf A → (i < (shape A).1)%nat → (k < (shape A).2)%nat →
  get2 A i k = Some (entry A i k).
Proof.
  intros [Hr Hc] Hi Hk. rewrite Forall_lookup in Hc. unfold get2, entry.
  rewrite (lookup_nth_lt (cells A) i []) by lia. simpl.
  apply lookup_nth_lt. rewrite (Hc i); [exact Hk|].
  apply lookup_nth_lt. lia.
Qed.

Lemma wf_zeros2 (m p : nat) : wf (zeros2 m p).
Proof.
  split; simpl; [apply length_replicate|].
  apply Forall_lookup. intros i row H.
  apply lookup_replicate in H as [-> _]. apply length_replicate.
Qed.

Lemma get2_zeros2 (m p i j : nat) :
  (i < m)%nat → (j < p)%nat → get2 (zeros2 m p) i j = Some 0.
Proof.
  intros Hi Hj. unfold get2, zeros2; simpl.
  rewrite lookup_replicate_2 by exact Hi. simpl.
  apply lookup_replicate_2. exact Hj.
Qed.

(** Writing one cell: the cell holds the new value, every other cell and
    the shape are kept. *)
Lemma set2_spec (C : ndarray) (i j : nat) (v : Q) :
  wf C → (i < (shape C).1)%nat → (j < (shape C).2)%nat →
  ∃ C', set2 C i j v = Some C'
    ∧ wf C' ∧ shape C' = shape C
    ∧ get2 C' i j = Some v
    ∧ ∀ i' j', (i', j') ≠ (i, j) → get2 C' i' j' = get2 C i' j'.
Proof.
  intros [Hr Hc] Hi Hj. rewrite Forall_lookup in Hc. unfold set2.
  destruct (lookup_lt_is_Some_2 (cells C) i ltac:(lia)) as [row Hrow].
  rewrite Hrow. simpl. pose proof (Hc i row Hrow) as Hlen.
  rewrite set_item_Some by lia. simpl.
  eexists. split; [reflexivity|]. split; [|split; [reflexivity|split]].
  - split; simpl; [rewrite length_insert; exact Hr|].
    apply Forall_lookup. intros i' row' H'. destruct (decide (i' = i)) as [->|Hne].
    + rewrite list_lookup_insert_eq in H' by lia. injection H' as <-.
      rewrite length_insert. exact Hlen.
    + rewrite list_lookup_insert_ne in H' by congruence. exact (Hc i' row' H').
  - unfold get2; simpl. rewrite list_lookup_insert_eq by lia. simpl.
    apply list_lookup_insert_eq. lia.
  - intros i' j' Hne. unfold get2; simpl.
    destruct (decide (i' = i)) as [->|Hi'].
    + rewrite list_lookup_insert_eq by lia. rewrite Hrow. simpl.
      apply list_lookup_insert_ne. congruence.
    + rewrite list_lookup_insert_ne by congruence. reflexivity.
Qed.

Section Loops.
Context (A B : ndarray) (m n p : nat).
Context (HA : wf A) (HB : wf B).
Context (HsA : shape A = (m, n)) (HsB : shape B = (n, p)).

(** The loop over k accumulates the sum into C[i, j] and touches no other cell. *)
Lemma inner_loop (i j : nat) (C : ndarray) :
  (i < m)%nat → (j < p)%nat →
  wf C → shape C = (m, p) → get2 C i j = Some 0 →
  ∃ C', for_range (λ k C, matrix_multiply_step A B i j k C) 0 n C = Some C'
    ∧ wf C' ∧ shape C' = (m, p)
    ∧ get2 C' i j = Some (dot A B i j n)
    ∧ ∀ i' j', (i', j') ≠ (i, j) → get2 C' i' j' = get2 C i' j'.
Proof.
  intros Hi Hj HC HsC H0.
  destruct (for_range_inv (λ k C, matrix_multiply_step A B i j k C)
    (λ k C', wf C' ∧ shape C' = (m, p) ∧ get2 C' i j = Some (dot A B i j k)
       ∧ ∀ i' j', (i', j') ≠ (i, j) → get2 C' i' j' = get2 C i' j')
    0 n C) as (C' & E & H).
  - auto.
  - intros k C1 Hk (Hw & Hs & Hg & Hrest).
    unfold matrix_multiply_step.
    rewrite (get2_entry A i k) by (rewrite ?HsA; simpl; auto; lia). simpl.
    rewrite (get2_entry B k j) by (rewrite ?HsB; simpl; auto; lia). simpl.
    rewrite Hg. simpl.
    destruct (set2_spec C1 i j (dot A B i j k + entry A i k * entry B k j) Hw)
      as (C2 & E2 & Hw2 & Hs2 & Hg2 & Hrest2); [rewrite Hs; simpl; lia..|].
    exists C2. split; [exact E2|]. split; [exact Hw2|].
    split; [congruence|]. split; [exact Hg2|].
    intros i' j' Hne. rewrite Hrest2 by exact Hne. apply Hrest. exact Hne.
  - exists C'. simpl in H. tauto.
Qed.

(** The loop over j fills row i and touches no other row. *)
Lemma middle_loop (i : nat) (C : ndarray) :
  (i < m)%nat →
  wf C → shape C = (m, p) → (∀ j, (j < p)%nat → get2 C i j = Some 0) →
  ∃ C', for_range (λ j C,
          for_range (λ k C, matrix_multiply_step A B i j k C) 0 n C) 0 p C = Some C'
    ∧ wf C' ∧ shape C' = (m, p)
    ∧ (∀ j, (j < p)%nat → get2 C' i j = Some (dot A B i j n))
    ∧ ∀ i' j', i' ≠ i → get2 C' i' j' = get2 C i' j'.
Proof.
  intros Hi HC HsC H0.
  destruct (for_range_inv
    (λ j C, for_range (λ k C, matrix_multiply_step A B i j k C) 0 n C)
    (λ j C', wf C' ∧ shape C' = (m, p)
       ∧ (∀ j', (j' < j)%nat → get2 C' i j' = Some (dot A B i j' n))
       ∧ (∀ j', (j ≤ j' < p)%nat → get2 C' i j' = Some 0)
       ∧ ∀ i' j', i' ≠ i → get2 C' i' j' = get2 C i' j')
    0 p C) as (C' & E & H).
  - split; [exact HC|]. split; [exact HsC|]. split; [intros; lia|].
    split; [intros; apply H0; lia|reflexivity].
  - intros j C1 Hj (Hw & Hs & Hdone & Htodo & Hrest).
    destruct (inner_loop i j C1 Hi ltac:(lia) Hw Hs (Htodo j ltac:(lia)))
      as (C2 & E2 & Hw2 & Hs2 & Hg2 & Hrest2).
    exists C2. split; [exact E2|]. split; [exact Hw2|]. split; [exact Hs2|].
    split; [|split].
    + intros j' Hj'. destruct (decide (j' = j)) as [->|Hne]; [exact Hg2|].
      rewrite Hrest2 by congruence. apply Hdone. lia.
    + intros j' Hj'. rewrite Hrest2 by (intros [=]; lia). apply Htodo. lia.
    + intros i' j' Hne. rewrite Hrest2 by congruence. apply Hrest. exact Hne.
  - exists C'. simpl in H. destruct H as (Hw & Hs & Hdone & _ & Hrest).
    split; [exact E|]. split; [exact Hw|]. split; [exact Hs|].
    split; [intros; apply Hdone; lia|exact Hrest].
Qed.

Lemma outer_loop :
  ∃ C', for_range (λ i C,
          for_range (λ j C,
            for_range (λ k C, matrix_multiply_step A B i j k C) 0 n C) 0 p C)
          0 m (zeros2 m p) = Some C'
    ∧ wf C' ∧ shape C' = (m, p)
    ∧ ∀ i j, (i < m)%nat → (j < p)%nat → get2 C' i j = Some (dot A B i j n).
Proof.
  destruct (for_range_inv
    (λ i C, for_range (λ j C,
       for_range (λ k C, matrix_multiply_step A B i j k C) 0 n C) 0 p C)
    (λ i C', wf C' ∧ shape C' = (m, p)
       ∧ (∀ i' j, (i' < i)%nat → (j < p)%nat → get2 C' i' j = Some (dot A B i' j n))
       ∧ (∀ i' j, (i ≤ i' < m)%nat → (j < p)%nat → get2 C' i' j = Some 0))
    0 m (zeros2 m p)) as (C' & E & H).
  - split; [apply wf_zeros2|]. split; [reflexivity|]. split; [intros; lia|].
    intros i' j Hi' Hj. apply get2_zeros2; lia.
  - intros i C1 Hi (Hw & Hs & Hdone & Htodo).
    destruct (middle_loop i C1 ltac:(lia) Hw Hs) as (C2 & E2 & Hw2 & Hs2 & Hg2 & Hrest2).
    { intros j Hj. apply Htodo; lia. }
    exists C2. split; [exact E2|]. split; [exact Hw2|]. split; [exact Hs2|]. split.
    + intros i' j Hi' Hj. destruct (decide (i' = i)) as [->|Hne]; [apply Hg2; exact Hj|].
      rewrite Hrest2 by exact Hne. apply Hdone; lia.
    + intros i' j Hi' Hj. rewrite Hrest2 by lia. apply Htodo; lia.
  - exists C'. simpl in H. destruct H as (Hw & Hs & Hdone & _).
    split; [exact E|]. split; [exact Hw|]. split; [exact Hs|].
    intros i j Hi Hj. apply Hdone; lia.
Qed.

End Loops.

(** C6: for an m x n array A and an n x p array B, matrix_multiply returns
    an m x p array C with C[i, j] = sum over k = 0..n-1 of A[i, k] * B[k, j]
    for all i < m and j < p. *)
Theorem matrix_multiply_is_product (A B : ndarray) (m n p : nat) :
  wf A → wf B → shape A = (m, n) → shape B = (n, p) →
  ∃ C, matrix_multiply A B = Some C
    ∧ wf C ∧ shape C = (m, p)
    ∧ ∀ i j, (i < m)%nat → (j < p)%nat →
        get2 C i j = Some (Qsum (λ k, entry A i k * entry B k j) n).
Proof.
  intros HA HB HsA HsB. unfold matrix_multiply. rewrite HsA, HsB.
  exact (outer_loop A B m n p HA HB HsA HsB).
Qed.

Lemma matrix_multiply_is_product_witness :
  ∃ C, matrix_multiply (mk_ndarray (2%nat, 3%nat) [[1; 2; 3]; [4; 5; 6]])
                       (mk_ndarray (3%nat, 2%nat) [[1; 0]; [0; 1]; [2; 2]]) = Some C
    ∧ wf C ∧ shape C = (2%nat, 2%nat)
    ∧ ∀ i j, (i < 2)%nat → (j < 2)%nat →
        get2 C i j
        = Some (Qsum (λ k, entry (mk_ndarray (2%nat, 3%nat) [[1; 2; 3]; [4; 5; 6]]) i k
                           * entry (mk_ndarray (3%nat, 2%nat) [[1; 0]; [0; 1]; [2; 2]]) k j) 3%nat).
Proof.
  apply (matrix_multiply_is_product
           (mk_ndarray (2%nat, 3%nat) [[1; 2; 3]; [4; 5; 6]])
           (mk_ndarray (3%nat, 2%nat) [[1; 0]; [0; 1]; [2; 2]]) 2%nat 3%nat 2%nat).
  - split; [reflexivity|]. repeat constructor.
  - split; [reflexivity|]. repeat constructor.
  - reflexivity.
  - reflexivity.
Defined.

End MatrixMultiply.

(** ** The shared counter *)

Section Counter.
Import Py Parallel.

Lemma Zsum_insert (g : list instr → Z) (ws : list worker) (i : nat) (w w' : worker) :
  ws !! i = Some w →
  Zsum g (<[i:=w']> ws) = (Zsum g ws - g (code w) + g (code w'))%Z.
Proof.
  revert i; induction ws as [|u ws IH]; intros [|i] H; simpl in *; try discriminate.
  - injection H as ->. lia.
  - rewrite (IH i H). lia.
Qed.

Lemma Zsum_zero (g : list instr → Z) (ws : list worker) :
  (∀ i w, ws !! i = Some w → g (code w) = 0%Z) → Zsum g ws = 0%Z.
Proof.
  induction ws as [|u ws IH]; intros H; simpl; [reflexivity|].
  rewrite (H 0%nat u eq_refl), IH; [reflexivity|].
  intros i w Hw. exact (H (S i) w Hw).
Qed.

Lemma Zsum_nonneg (g : list instr → Z) (ws : list worker) :
  (∀ c, 0 ≤ g c)%Z → (0 ≤ Zsum g ws)%Z.
Proof.
  intros Hg. induction ws as [|u ws IH]; simpl; [lia|].
  pose proof (Hg (code u)). lia.
Qed.

Lemma Zsum_bounds (g : list instr → Z) (ws : list worker) (i : nat) (w : worker) :
  (∀ c, 0 ≤ g c)%Z → ws !! i = Some w → (g (code w) ≤ Zsum g ws)%Z.
Proof.
  intros Hg. revert i; induction ws as [|u ws IH]; intros [|i] H; simpl in *;
    try discriminate.
  - injection H as ->. pose proof (Zsum_nonneg g ws Hg). lia.
  - pose proof (IH i H). pose proof (Hg (code u)). lia.
Qed.

Lemma Zsum_pos_inv (g : list instr → Z) (ws : list worker) :
  (0 < Zsum g ws)%Z → ∃ i w, ws !! i = Some w ∧ g (code w) ≠ 0%Z.
Proof.
  induction ws as [|u ws IH]; simpl; intros H; [lia|].
  destruct (decide (g (code u) = 0%Z)) as [E|E].
  - destruct IH as (i & w & Hw & Hg); [lia|]. exists (S i), w. auto.
  - exists 0%nat, u. auto.
Qed.

Lemma owed_nonneg (c : list instr) : (0 ≤ owed c)%Z.
Proof. unfold owed. destruct (decide _); lia. Qed.

Lemma holds_nonneg (c : list instr) : (0 ≤ holds c)%Z.
Proof. unfold holds. destruct (decide _); lia. Qed.

(** With the lock held by worker [i], no other worker is between its
    acquire and its release. *)
Lemma holds_unique (ws : list worker) (i j : nat) (w u : worker) :
  ws !! i = Some w → holds (code w) = 1%Z → (Zsum holds ws ≤ 1)%Z →
  ws !! j = Some u → j ≠ i → holds (code u) = 0%Z.
Proof.
  intros Hw Hh Hsum Hu Hne.
  pose proof (Zsum_insert holds ws i w {| code := []; tmp := 0 |} Hw) as Hins.
  change (holds (code {| code := []; tmp := 0 |})) with 0%Z in Hins.
  assert (Hu' : <[i:={| code := []; tmp := 0 |}]> ws !! j = Some u)
    by (rewrite list_lookup_insert_ne by congruence; exact Hu).
  pose proof (Zsum_bounds holds _ j u holds_nonneg Hu').
  pose proof (holds_nonneg (code u)). lia.
Qed.

Lemma lock_inv_init (procs tasks : nat) : lock_inv tasks (init procs tasks).
Proof.
  unfold lock_inv, init; simpl.
  assert (Hidle : ∀ i w, replicate procs {| code := []; tmp := 0 |} !! i = Some w →
                         code w = []).
  { intros i w H. apply lookup_replicate in H as [-> _]. reflexivity. }
  split; [intros i w H; left; eauto|].
  split; [rewrite Zsum_zero; [lia|]; intros i w H; rewrite (Hidle i w H); reflexivity|].
  split; [apply Zsum_zero; intros i w H; rewrite (Hidle i w H); reflexivity|].
  intros i w H Hc. rewrite (Hidle i w H) in Hc. discriminate.
Qed.

(** Every move of a worker running [count_with_lock] keeps the invariant. *)
Lemma step_lock_inv (tasks i : nat) (P P' : pool) :
  lock_inv tasks P → step count_with_lock i P = Some P' → lock_inv tasks P'.
Proof.
  intros (Hok & Hsum & Hlock & Htmp) Hstep. unfold step in Hstep.
  destruct (workers P !! i) as [w|] eqn:Hw; [|discriminate]. simpl in Hstep.
  pose proof (Hok i w Hw) as Hc.
  pose proof (Zsum_insert owed (workers P) i w) as Ho.
  pose proof (Zsum_insert holds (workers P) i w) as Hh.
  destruct Hc as [Hc|[Hc|[Hc|[Hc|Hc]]]]; rewrite Hc in Hstep, Ho, Hh.
  - destruct (pending P) as [|k] eqn:Hp; [discriminate|]. injection Hstep as <-.
    unfold lock_inv; simpl.
    split; [|split; [|split]].
    + intros j u Hj. apply list_lookup_insert_Some in Hj as [(-> & <- & _)|(Hne & Hj)];
        [right; left; reflexivity|eauto].
    + rewrite Ho by exact Hw. simpl. change (owed []) with 0%Z.
      change (owed count_with_lock) with 1%Z. lia.
    + rewrite Hh by exact Hw. simpl. change (holds []) with 0%Z.
      change (holds count_with_lock) with 0%Z. lia.
    + intros j u Hj Hcode.
      apply list_lookup_insert_Some in Hj as [(-> & <- & _)|(Hne & Hj)];
        [discriminate|eauto].
  - destruct (lock P) eqn:Hl; [discriminate|]. injection Hstep as <-.
    unfold lock_inv; simpl.
    split; [|split; [|split]].
    + intros j u Hj. apply list_lookup_insert_Some in Hj as [(-> & <- & _)|(Hne & Hj)];
        [right; right; left; reflexivity|eauto].
    + rewrite Ho by exact Hw. simpl. change (owed [Acquire; Load; Store; Release]) with 1%Z.
      change (owed [Load; Store; Release]) with 1%Z. lia.
    + rewrite Hh by exact Hw. simpl. change (holds [Acquire; Load; Store; Release]) with 0%Z.
      change (holds [Load; Store; Release]) with 1%Z. lia.
    + intros j u Hj Hcode.
      apply list_lookup_insert_Some in Hj as [(-> & <- & _)|(Hne & Hj)];
        [discriminate|eauto].
  - injection Hstep as <-. unfold lock_inv; simpl.
    split; [|split; [|split]].
    + intros j u Hj. apply list_lookup_insert_Some in Hj as [(-> & <- & _)|(Hne & Hj)];
        [right; right; right; left; reflexivity|eauto].
    + rewrite Ho by exact Hw. simpl. change (owed [Load; Store; Release]) with 1%Z.
      change (owed [Store; Release]) with 1%Z. lia.
    + rewrite Hh by exact Hw. simpl. change (holds [Load; Store; Release]) with 1%Z.
      change (holds [Store; Release]) with 1%Z. lia.
    + intros j u Hj Hcode.
      apply list_lookup_insert_Some in Hj as [(-> & <- & _)|(Hne & Hj)];
        [reflexivity|eauto].
  - injection Hstep as <-. unfold lock_inv; simpl.
    pose proof (Htmp i w Hw Hc) as Hval.
    split; [|split; [|split]].
    + intros j u Hj. apply list_lookup_insert_Some in Hj as [(-> & <- & _)|(Hne & Hj)];
        [right; right; right; right; reflexivity|eauto].
    + rewrite Ho by exact Hw. simpl. change (owed [Store; Release]) with 1%Z.
      change (owed [Release]) with 0%Z. lia.
    + rewrite Hh by exact Hw. simpl. change (holds [Store; Release]) with 1%Z.
      change (holds [Release]) with 1%Z. lia.
    + intros j u Hj Hcode.
      apply list_lookup_insert_Some in Hj as [(-> & <- & _)|(Hne & Hj)];
        [discriminate|].
      assert (Hu : holds (code u) = 0%Z).
      { apply (holds_unique (workers P) i j w u Hw); [rewrite Hc; reflexivity| |exact Hj|congruence].
        rewrite Hlock. destruct (lock P); lia. }
      rewrite Hcode in Hu. discriminate.
  - destruct (lock P) eqn:Hl; [|discriminate]. injection Hstep as <-.
    unfold lock_inv; simpl.
    split; [|split; [|split]].
    + intros j u Hj. apply list_lookup_insert_Some in Hj as [(-> & <- & _)|(Hne & Hj)];
        [left; reflexivity|eauto].
    + rewrite Ho by exact Hw. simpl. change (owed [Release]) with 0%Z.
      change (owed []) with 0%Z. lia.
    + rewrite Hh by exact Hw. simpl. change (holds [Release]) with 1%Z.
      change (holds []) with 0%Z. lia.
    + intros j u Hj Hcode.
      apply list_lookup_insert_Some in Hj as [(-> & <- & _)|(Hne & Hj)];
        [discriminate|eauto].
Qed.

Lemma run_lock_inv (tasks : nat) (sched : list nat) (P P' : pool) :
  lock_inv tasks P → run count_with_lock sched P = Some P' → lock_inv tasks P'.
Proof.
  revert P; induction sched as [|i sched IH]; intros P HP Hrun; simpl in Hrun.
  - injection Hrun as <-. exact HP.
  - destruct (step count_with_lock i P) as [P1|] eqn:E; [|discriminate].
    simpl in Hrun. exact (IH P1 (step_lock_inv tasks i P P1 HP E) Hrun).
Qed.

(** When the map has returned under the invariant, every increment was written. *)
Lemma lock_inv_finished (tasks : nat) (P : pool) :
  lock_inv tasks P → finished P → val P = Z.of_nat tasks.
Proof.
  intros (_ & Hsum & _ & _) [Hp Hidle]. rewrite Forall_lookup in Hidle.
  rewrite Hp in Hsum. rewrite Zsum_zero in Hsum; [lia|].
  intros i w Hw. rewrite (Hidle i w Hw). reflexivity.
Qed.

Lemma step_workers_length (task : list instr) (i : nat) (P P' : pool) :
  step task i P = Some P' → length (workers P') = length (workers P).
Proof.
  unfold step. destruct (workers P !! i) as [w|]; [|discriminate]. simpl.
  destruct (code w) as [|[| | |] c]; [destruct (pending P)| destruct (lock P)| |
                                       |destruct (lock P)];
    intros H; try discriminate; injection H as <-; simpl; apply length_insert.
Qed.

Lemma run_workers_length (task : list instr) (sched : list nat) (P P' : pool) :
  run task sched P = Some P' → length (workers P') = length (workers P).
Proof.
  revert P; induction sched as [|i sched IH]; intros P Hrun; simpl in Hrun.
  - injection Hrun as <-. reflexivity.
  - destruct (step task i P) as [P1|] eqn:E; [|discriminate]. simpl in Hrun.
    rewrite (IH P1 Hrun). exact (step_workers_length task i P P1 E).
Qed.

(** Under the invariant some worker can always move until the map has
    returned: the lock never blocks every worker. *)
Lemma lock_progress (tasks : nat) (P : pool) :
  lock_inv tasks P → (0 < length (workers P))%nat → ¬ finished P →
  ∃ i P', step count_with_lock i P = Some P'.
Proof.
  intros (Hok & Hsum & Hlock & Htmp) Hlen Hnf.
  destruct (decide (Forall (λ w, code w = []) (workers P))) as [Hidle|Hbusy].
  - destruct (pending P) as [|k] eqn:Hp; [exfalso; apply Hnf; split; assumption|].
    destruct (lookup_lt_is_Some_2 (workers P) 0 Hlen) as [w Hw].
    rewrite Forall_lookup in Hidle. pose proof (Hidle _ _ Hw) as Hc.
    exists 0%nat. unfold step. rewrite Hw. simpl. rewrite Hc, Hp. eauto.
  - apply not_Forall_Exists in Hbusy; [|intros w; apply _].
    apply Exists_exists in Hbusy as (w & Hin & Hne). simpl in Hne.
    apply list_elem_of_lookup in Hin as [i Hw].
    destruct (Hok i w Hw) as [Hc|[Hc|[Hc|[Hc|Hc]]]]; [contradiction| | | |].
    + destruct (lock P) eqn:Hl.
      * destruct (Zsum_pos_inv holds (workers P)) as (j & u & Hu & Hh); [lia|].
        exists j. unfold step. rewrite Hu. simpl.
        destruct (Hok j u Hu) as [Hd|[Hd|[Hd|[Hd|Hd]]]]; rewrite Hd in Hh |- *;
          try (exfalso; apply Hh; reflexivity); rewrite ?Hl; eauto.
      * exists i. unfold step. rewrite Hw. simpl. rewrite Hc, Hl. eauto.
    + exists i. unfold step. rewrite Hw. simpl. rewrite Hc. eauto.
    + exists i. unfold step. rewrite Hw. simpl. rewrite Hc. eauto.
    + exists i. unfold step. rewrite Hw. simpl. rewrite Hc.
      pose proof (Zsum_bounds holds (workers P) i w holds_nonneg Hw) as Hb.
      rewrite Hc in Hb. change (holds [Release]) with 1%Z in Hb.
      destruct (lock P); [eauto|lia].
Qed.

Lemma run_app (task : list instr) (s1 s2 : list nat) (P : pool) :
  run task (s1 ++ s2) P = P1 ← run task s1 P; run task s2 P1.
Proof.
  revert P; induction s1 as [|i s1 IH]; intros P; simpl; [reflexivity|].
  destruct (step task i P) as [P1|]; simpl; [apply IH|reflexivity].
Qed.

(** Worker 0 alone runs one locked call from start to end. *)
Lemma one_call_with_lock (v : Z) (k : nat) (t : Z) (ws : list worker) :
  run count_with_lock [0; 0; 0; 0; 0]%nat
    {| val := v; lock := false; pending := S k;
       workers := {| code := []; tmp := t |} :: ws |}
  = Some {| val := (v + 1)%Z; lock := false; pending := k;
            workers := {| code := []; tmp := v |} :: ws |}.
Proof. reflexivity. Qed.

(** Worker 0 alone runs one unlocked call from start to end. *)
Lemma one_call_with_value (v : Z) (l : bool) (k : nat) (t : Z) (ws : list worker) :
  run count_with_value [0; 0; 0]%nat
    {| val := v; lock := l; pending := S k;
       workers := {| code := []; tmp := t |} :: ws |}
  = Some {| val := (v + 1)%Z; lock := l; pending := k;
            workers := {| code := []; tmp := v |} :: ws |}.
Proof. reflexivity. Qed.

(** Run one after the other by worker 0, the pending calls all complete
    and each adds one. *)
Lemma sequential_with_lock (k : nat) (v t : Z) (ws : list worker) :
  Forall (λ w, code w = []) ws →
  ∃ sched P, run count_with_lock sched
      {| val := v; lock := false; pending := k;
         workers := {| code := []; tmp := t |} :: ws |} = Some P
    ∧ finished P ∧ val P = (v + Z.of_nat k)%Z.
Proof.
  intros Hws. revert v t; induction k as [|k IH]; intros v t.
  - exists [], {| val := v; lock := false; pending := 0;
                  workers := {| code := []; tmp := t |} :: ws |}.
    split; [reflexivity|]. split; [|simpl; lia].
    split; [reflexivity|]. constructor; [reflexivity|exact Hws].
  - destruct (IH (v + 1)%Z v) as (sched & P & Hrun & Hfin & Hval).
    exists ([0; 0; 0; 0; 0]%nat ++ sched), P.
    rewrite run_app, one_call_with_lock. simpl.
    split; [exact Hrun|]. split; [exact Hfin|lia].
Qed.

Lemma sequential_with_value (k : nat) (v t : Z) (l : bool) (ws : list worker) :
  Forall (λ w, code w = []) ws →
  ∃ sched P, run count_with_value sched
      {| val := v; lock := l; pending := k;
         workers := {| code := []; tmp := t |} :: ws |} = Some P
    ∧ finished P ∧ val P = (v + Z.of_nat k)%Z.
Proof.
  intros Hws. revert v t; induction k as [|k IH]; intros v t.
  - exists [], {| val := v; lock := l; pending := 0;
                  workers := {| code := []; tmp := t |} :: ws |}.
    split; [reflexivity|]. split; [|simpl; lia].
    split; [reflexivity|]. constructor; [reflexivity|exact Hws].
  - destruct (IH (v + 1)%Z v) as (sched & P & Hrun & Hfin & Hval).
    exists ([0; 0; 0]%nat ++ sched), P.
    rewrite run_app, one_call_with_value. simpl.
    split; [exact Hrun|]. split; [exact Hfin|lia].
Qed.

(** Two workers that both read before either writes lose one increment. *)
Lemma lost_update (v : Z) (k : nat) (t0 t1 : Z) (ws : list worker) :
  run count_with_value [0; 1; 0; 1; 0; 1]%nat
    {| val := v; lock := false; pending := S (S k);
       workers := {| code := []; tmp := t0 |} :: {| code := []; tmp := t1 |} :: ws |}
  = Some {| val := (v + 1)%Z; lock := false; pending := k;
            workers := {| code := []; tmp := v |} :: {| code := []; tmp := v |} :: ws |}.
Proof. reflexivity. Qed.

(** C8: with the lock around each increment, every interleaving of the 4
    workers over the 1000 calls that lets the map return leaves val.value =
    1000, no interleaving gets stuck before that, and the map can return;
    without the lock some interleaving returns with a value below 1000. *)
Theorem counter_with_lock_is_exact :
  (∀ sched P, run count_with_lock sched (init 4 1000) = Some P →
     finished P → val P = 1000%Z)
  ∧ (∀ sched P, run count_with_lock sched (init 4 1000) = Some P →
     ¬ finished P → ∃ i P', step count_with_lock i P = Some P')
  ∧ (∃ sched P, run count_with_lock sched (init 4 1000) = Some P ∧ finished P)
  ∧ (∃ sched P, run count_with_value sched (init 4 1000) = Some P
       ∧ finished P ∧ (val P < 1000)%Z).
Proof.
  split; [|split; [|split]].
  - intros sched P Hrun Hfin.
    apply (lock_inv_finished 1000 P); [|exact Hfin].
    exact (run_lock_inv 1000 sched _ P (lock_inv_init 4 1000) Hrun).
  - intros sched P Hrun Hnf.
    apply (lock_progress 1000 P); [|
      rewrite (run_workers_length _ _ _ _ Hrun); simpl; lia|exact Hnf].
    exact (run_lock_inv 1000 sched _ P (lock_inv_init 4 1000) Hrun).
  - destruct (sequential_with_lock 1000 0 0 (replicate 3 {| code := []; tmp := 0 |}))
      as (sched & P & Hrun & Hfin & _); [repeat constructor|].
    exists sched, P. split; [exact Hrun|exact Hfin].
  - destruct (sequential_with_value 998 1 0 false
                [{| code := []; tmp := 0 |}; {| code := []; tmp := 0 |};
                 {| code := []; tmp := 0 |}])
      as (sched & P & Hrun & Hfin & Hval); [repeat constructor|].
    exists ([0; 1; 0; 1; 0; 1]%nat ++ sched), P.
    split; [|split; [exact Hfin|lia]].
    rewrite run_app.
    change (init 4 1000) with
      {| val := 0; lock := false; pending := S (S 998);
         workers := {| code := []; tmp := 0 |} :: {| code := []; tmp := 0 |}
                    :: replicate 2 {| code := []; tmp := 0 |} |}.
    rewrite lost_update. exact Hrun.
Qed.

End Counter.

(** ** Plain gradient descent *)

Section PlainDescent.
Import Py GradientDescent.

Lemma gd_spec (x : Q) (grad : Q → Q) (alpha : Q) (max_iter : nat) :
  gd x grad alpha max_iter
  = Some (map (gd_state x grad alpha) (seq 0 (S max_iter))).
Proof.
  unfold gd.
  rewrite set_item_Some by (unfold zeros; rewrite length_replicate; lia).
  cbn [mbind option_bind].
  destruct (for_range_inv (gd_body grad alpha)
    (λ i st, st.1 = gd_state x grad alpha i
       ∧ length st.2 = S max_iter
       ∧ ∀ k, (k ≤ i)%nat → st.2 !! k = Some (gd_state x grad alpha k))
    0 max_iter (x, <[0%nat:=x]> (zeros (1 + max_iter)))) as (st & E & _ & Hl & Hk).
  - cbn [fst snd]. split; [reflexivity|].
    split; [rewrite length_insert; apply length_replicate|].
    intros k Hk. replace k with 0%nat by lia. reflexivity.
  - intros i [xi xs] Hi (Hst & Hl & Hk); simpl in *. subst xi.
    unfold gd_body. rewrite set_item_Some by lia. simpl.
    eexists; split; [reflexivity|]. simpl.
    split; [reflexivity|]. split; [rewrite length_insert; exact Hl|].
    intros k Hk'. destruct (decide (k = S i)) as [->|Hne].
    + replace (i + 1)%nat with (S i) by lia.
      rewrite list_lookup_insert_eq by lia. reflexivity.
    + rewrite list_lookup_insert_ne by lia. apply Hk. lia.
  - assert (Hst : st.2 = map (gd_state x grad alpha) (seq 0 (S max_iter))).
    { apply list_eq. intros k. rewrite list_lookup_fmap.
      destruct (decide (k ≤ max_iter)%nat) as [H|H].
      + rewrite Hk by (simpl; lia). rewrite lookup_seq_lt by lia. reflexivity.
      + rewrite lookup_ge_None_2 by lia. rewrite lookup_seq_ge by lia. reflexivity. }
    rewrite E. cbn [mbind option_bind]. rewrite <- Hst. reflexivity.
Qed.

Lemma gd_state_bowl (x alpha : Q) (k : nat) :
  gd_state x grad alpha k == pow (1 - 2 * alpha) k * x.
Proof.
  induction k as [|k IH]; [rewrite pow_0; simpl; ring|].
  cbn [gd_state]. set (g := gd_state x grad alpha k) in *. clearbody g.
  unfold grad. rewrite pow_S, IH. ring.
Qed.

(** X1: on f(x) = x^2 every row of gd is the start scaled by a power of
    1 - 2*alpha: row k is (1 - 2*alpha)^k * x. *)
Theorem gd_bowl_closed_form (x alpha : Q) (max_iter : nat) :
  ∃ xs, gd x grad alpha max_iter = Some xs
    ∧ length xs = S max_iter
    ∧ ∀ k, (k ≤ max_iter)%nat → nth k xs 0 == pow (1 - 2 * alpha) k * x.
Proof.
  eexists. split; [apply gd_spec|].
  split; [rewrite length_map, length_seq; reflexivity|].
  intros k Hk. rewrite nth_map_seq by lia. apply gd_state_bowl.
Qed.

Lemma Qabs_pow (c : Q) (k : nat) : Qabs (pow c k) == pow (Qabs c) k.
Proof.
  induction k as [|k IH]; [reflexivity|].
  rewrite !pow_S, Qabs_Qmult, IH. reflexivity.
Qed.

Lemma Qabs_pos (x : Q) : ¬ x == 0 → 0 < Qabs x.
Proof.
  intros Hx. pose proof (Qabs_nonneg x) as H0.
  destruct (Qlt_le_dec 0 (Qabs x)) as [H|H]; [exact H|].
  exfalso. apply Hx. apply Qabs_Qle_condition in H. lra.
Qed.


(** Powers of a ratio above one grow at least like 1 + m*(r - 1). *)
Lemma pow_growth (r : Q) (m : nat) :
  1 <= r → 1 + inject_Z (Z.of_nat m) * (r - 1) <= pow r m.
Proof.
  intros H1. induction m as [|m IH].
  - rewrite pow_0. change (inject_Z (Z.of_nat 0)) with 0. lra.
  - rewrite pow_S, Nat2Z.inj_succ. unfold Z.succ. rewrite inject_Z_plus.
    change (inject_Z 1) with 1.
    assert (Hm : 0 <= inject_Z (Z.of_nat m)).
    { change 0 with (inject_Z 0). rewrite <- Zle_Qle. lia. }
    set (P := pow r m) in *. set (im := inject_Z (Z.of_nat m)) in *. clearbody P im.
    assert (H2 : 0 <= (r - 1) * (P - (1 + im * (r - 1)))) by (apply Qmult_le_0_compat; lra).
    assert (H3 : 0 <= im * ((r - 1) * (r - 1))).
    { apply Qmult_le_0_compat; [exact Hm|apply Qsq_nonneg]. }
    lra.
Qed.


Lemma pow_exceeds (r E bound : Q) :
  1 < r → 0 < E →
  ∃ M : nat, ∀ m, (M ≤ m)%nat → bound < pow r m * E.
Proof.
  intros H1 HE.
  destruct (nat_above (bound * / (E * (r - 1)))) as [M HM].
  exists M. intros m Hm.
  assert (HMm : inject_Z (Z.of_nat M) <= inject_Z (Z.of_nat m)).
  { rewrite <- Zle_Qle. lia. }
  assert (Hd : 0 < E * (r - 1)) by (apply Qmult_lt_0_compat; lra).
  assert (Hq : bound < inject_Z (Z.of_nat M) * (E * (r - 1))).
  { apply Qmult_lt_compat_r with (z := E * (r - 1)) in HM; [|exact Hd].
    assert (Hf : bound * / (E * (r - 1)) * (E * (r - 1)) == bound) by (field; lra).
    rewrite Hf in HM. exact HM. }
  pose proof (pow_growth r m ltac:(lra)) as HP.
  set (P := pow r m) in *. set (im := inject_Z (Z.of_nat m)) in *.
  set (iM := inject_Z (Z.of_nat M)) in *. clearbody P im iM.
  assert (A1 : 0 <= (P - (1 + im * (r - 1))) * E) by (apply Qmult_le_0_compat; lra).
  assert (A2 : 0 <= (im - iM) * (E * (r - 1))) by (apply Qmult_le_0_compat; lra).
  lra.
Qed.

Lemma pow_nonzero (c : Q) (k : nat) : ¬ c == 0 → ¬ pow c k == 0.
Proof.
  intros Hc. induction k as [|k IH]; [rewrite pow_0; discriminate|].
  rewrite pow_S. intros H. apply Qmult_integral in H. tauto.
Qed.

Lemma Qabs_gd_state_bowl (x alpha : Q) (k : nat) :
  Qabs (gd_state x grad alpha k) == pow (Qabs (1 - 2 * alpha)) k * Qabs x.
Proof. rewrite gd_state_bowl, Qabs_Qmult, Qabs_pow. reflexivity. Qed.



(** X3: in exact arithmetic (rows as rationals, without the rounding,
    overflow to inf and nan of float64 rows), on f(x) = x^2 with a step size
    above 1/2 and a start other than 0 the iterates of gd overshoot the
    minimum on every step: consecutive rows have opposite signs. *)
Theorem gd_bowl_oscillates (x alpha : Q) (max_iter : nat) :
  1 # 2 < alpha → ¬ x == 0 →
  ∃ xs, gd x grad alpha max_iter = Some xs
    ∧ ∀ k, (k < max_iter)%nat → nth k xs 0 * nth (S k) xs 0 < 0.
Proof.
  intros Ha Hx. eexists. split; [apply gd_spec|].
  intros k Hk. rewrite !nth_map_seq by lia. cbn [gd_state].
  assert (Hg : ¬ gd_state x grad alpha k == 0).
  { rewrite gd_state_bowl. intros H. apply Qmult_integral in H as [H|H]; [|tauto].
    revert H. apply pow_nonzero. lra. }
  set (g := gd_state x grad alpha k) in *. clearbody g. unfold grad.
  assert (Hsq : 0 < g * g).
  { destruct (Qlt_le_dec 0 g) as [H|H]; [apply Qmult_lt_0_compat; exact H|].
    assert (g < 0) by (destruct (Qlt_le_dec g 0) as [H'|H']; [exact H'|exfalso; apply Hg; lra]).
    assert (0 < (- g) * (- g)) by (apply Qmult_lt_0_compat; lra). lra. }
  assert (0 < (2 * alpha - 1) * (g * g)) by (apply Qmult_lt_0_compat; lra).
  lra.
Qed.

Lemma gd_bowl_oscillates_witness :
  ∃ xs, gd 1 grad 0.95 10 = Some xs
    ∧ ∀ k, (k < 10)%nat → nth k xs 0 * nth (S k) xs 0 < 0.
Proof. apply (gd_bowl_oscillates 1 0.95 10); [reflexivity|discriminate]. Defined.

(** X4: in exact arithmetic (rows as rationals, without the rounding,
    overflow to inf and nan of float64 rows), with a step size above 1 gd
    diverges on f(x) = x^2 from every start other than the minimum: for
    every bound, all rows from some index on exceed it in absolute value.
    This unbounded growth is what ends in overflow on float64. *)
Theorem gd_bowl_diverges (x alpha bound : Q) :
  1 < alpha → ¬ x == 0 →
  ∃ N : nat, ∀ n max_iter, (N ≤ n)%nat → (n ≤ max_iter)%nat →
    ∃ xs, gd x grad alpha max_iter = Some xs ∧ bound < Qabs (nth n xs 0).
Proof.
  intros Ha Hx.
  destruct (pow_exceeds (Qabs (1 - 2 * alpha)) (Qabs x) bound) as [N HN];
    [|apply Qabs_pos; exact Hx|].
  { apply Qlt_le_trans with (- (1 - 2 * alpha)); [lra|].
    rewrite <- Qabs_opp. apply Qle_Qabs. }
  exists N. intros n max_iter Hn Hmax.
  eexists. split; [apply gd_spec|].
  rewrite nth_map_seq by lia. rewrite Qabs_gd_state_bowl. apply HN. exact Hn.
Qed.

Lemma gd_bowl_diverges_witness :
  ∃ N : nat, ∀ n max_iter, (N ≤ n)%nat → (n ≤ max_iter)%nat →
    ∃ xs, gd 1 grad 1.5 max_iter = Some xs ∧ 1000 < Qabs (nth n xs 0).
Proof. apply (gd_bowl_diverges 1 1.5 1000); [reflexivity|discriminate]. Defined.

Lemma gd_momentum_state_beta_zero (x : Q) (g : Q → Q) (alpha : Q) (k : nat) :
  (∀ a b, a == b → g a == g b) →
  (gd_momentum_state x g alpha 0 k).1 == gd_state x g alpha k.
Proof.
  intros Hg. induction k as [|k IH]; [reflexivity|].
  cbn [gd_momentum_state gd_state].
  destruct (gd_momentum_state x g alpha 0 k) as [xk vk]. cbn [fst] in *.
  replace (k + 1)%nat with (S k) by lia.
  assert (Hp : pow 0 (S k) == 0) by (rewrite pow_S; ring).
  rewrite Hp, (Hg _ _ IH), IH. field.
Qed.

(** X5: with damping beta = 0 the momentum variant is plain gradient
    descent: gd_momentum(x, grad, alpha, 0, n) and gd(x, grad, alpha, n)
    return the same rows. *)
Theorem gd_momentum_without_damping_is_gd (x : Q) (g : Q → Q) (alpha : Q)
    (max_iter : nat) :
  (∀ a b, a == b → g a == g b) →
  ∃ xs ys, gd_momentum x g alpha 0 max_iter = Some xs
    ∧ gd x g alpha max_iter = Some ys
    ∧ length xs = length ys
    ∧ ∀ k, (k ≤ max_iter)%nat → nth k xs 0 == nth k ys 0.
Proof.
  intros Hg. eexists. eexists.
  split; [apply gd_momentum_spec; discriminate|].
  split; [apply gd_spec|].
  split; [rewrite !length_map; reflexivity|].
  intros k Hk. rewrite !nth_map_seq by lia.
  apply gd_momentum_state_beta_zero. exact Hg.
Qed.

Lemma gd_momentum_without_damping_is_gd_witness :
  ∃ xs ys, gd_momentum 1 grad 0.1 0 10 = Some xs
    ∧ gd 1 grad 0.1 10 = Some ys
    ∧ length xs = length ys
    ∧ ∀ k, (k ≤ 10)%nat → nth k xs 0 == nth k ys 0.
Proof.
  apply (gd_momentum_without_damping_is_gd 1 grad 0.1 10).
  intros a b H. unfold grad. rewrite H. reflexivity.
Defined.

End PlainDescent.

(** ** The Rosenbrock function *)

Section Rosenbrock.
Import Py GradientDescent.

Lemma fold_left_Qplus (ts : list Q) (a : Q) :
  fold_left Qplus ts a == a + fold_left Qplus ts 0.
Proof.
  revert a; induction ts as [|t ts IH]; intros a; simpl; [ring|].
  rewrite (IH (a + t)), (IH (0 + t)). ring.
Qed.

Lemma py_sum_cons (t : Q) (ts : list Q) : py_sum (t :: ts) == t + py_sum ts.
Proof. unfold py_sum. simpl. rewrite fold_left_Qplus. ring. Qed.

Lemma rosen_cons (a b : Q) (x : list Q) :
  rosen (a :: b :: x)
  == 100 * (b - a ^ 2) ^ 2 + (1 - a) ^ 2 + rosen (b :: x).
Proof.
  assert (E : take (length (a :: b :: x) - 1) (a :: b :: x)
              = a :: take (length (b :: x) - 1) (b :: x))
    by (simpl; rewrite Nat.sub_0_r; reflexivity).
  unfold rosen. rewrite E. cbn [drop zip_with]. rewrite py_sum_cons. reflexivity.
Qed.

Lemma rosen_term_nonneg (a b : Q) : 0 <= 100 * (b - a ^ 2) ^ 2 + (1 - a) ^ 2.
Proof.
  pose proof (Qsq_nonneg (b - a ^ 2)). pose proof (Qsq_nonneg (1 - a)).
  assert (E1 : (b - a ^ 2) ^ 2 == (b - a ^ 2) * (b - a ^ 2)) by (simpl; ring).
  assert (E2 : (1 - a) ^ 2 == (1 - a) * (1 - a)) by (simpl; ring).
  rewrite E1, E2. lra.
Qed.

Lemma rosen_nonneg (x : list Q) : 0 <= rosen x.
Proof.
  induction x as [|a x IH]; [vm_compute; discriminate|].
  destruct x as [|b x]; [vm_compute; discriminate|].
  rewrite rosen_cons. pose proof (rosen_term_nonneg a b). lra.
Qed.

Lemma rosen_ones (n : nat) : rosen (replicate n 1) == 0.
Proof.
  induction n as [|n IH]; [reflexivity|].
  destruct n as [|n]; [reflexivity|].
  cbn [replicate] in *. rewrite rosen_cons, IH. simpl. ring.
Qed.

Lemma rosen_zero_ones (x : list Q) :
  (2 ≤ length x)%nat → rosen x == 0 → Forall (λ q, q == 1) x.
Proof.
  induction x as [|a x IH]; intros Hlen Hz; [simpl in Hlen; lia|].
  destruct x as [|b x]; [simpl in Hlen; lia|].
  rewrite rosen_cons in Hz.
  pose proof (rosen_nonneg (b :: x)) as Hr.
  pose proof (Qsq_nonneg (b - a ^ 2)) as H1. pose proof (Qsq_nonneg (1 - a)) as H2.
  assert (E1 : (b - a ^ 2) ^ 2 == (b - a ^ 2) * (b - a ^ 2)) by (simpl; ring).
  assert (E2 : (1 - a) ^ 2 == (1 - a) * (1 - a)) by (simpl; ring).
  rewrite E1, E2 in Hz.
  assert (Ha0 : (1 - a) * (1 - a) == 0) by lra.
  assert (Hb0 : (b - a ^ 2) * (b - a ^ 2) == 0) by lra.
  assert (Hr0 : rosen (b :: x) == 0) by lra.
  assert (Ha : a == 1).
  { apply Qmult_integral in Ha0. destruct Ha0; lra. }
  assert (Hb : b == 1).
  { apply Qmult_integral in Hb0. assert (b - a ^ 2 == 0) by tauto.
    assert (a ^ 2 == 1) by (rewrite Ha; reflexivity). lra. }
  constructor; [exact Ha|].
  destruct x as [|c x]; [constructor; [exact Hb|constructor]|].
  apply IH; [simpl; lia|exact Hr0].
Qed.

(** X6: rosen is never negative, it is 0 at the point whose coordinates
    are all 1, and for inputs with at least two coordinates that is its only
    zero: the global minimum is at (1, ..., 1). *)
Theorem rosen_global_minimum (x : list Q) (n : nat) :
  0 <= rosen x
  ∧ rosen (replicate n 1) == 0
  ∧ ((2 ≤ length x)%nat → rosen x == 0 → Forall (λ q, q == 1) x).
Proof.
  split; [apply rosen_nonneg|]. split; [apply rosen_ones|apply rosen_zero_ones].
Qed.

Lemma rosen_global_minimum_witness : Forall (λ q, q == 1) [1; 1].
Proof.
  apply (proj2 (proj2 (rosen_global_minimum [1; 1] 0)));
    [simpl; lia|vm_compute; reflexivity].
Defined.

Lemma rosen_der_unfold (x : list Q) :
  (2 ≤ length x)%nat →
  rosen_der x
  = Some (<[(length x - 1)%nat:=
             200 * (nth (length x - 1) x 0 - nth (length x - 2) x 0 ^ 2)]>
          (<[0%nat:=-400 * nth 0 x 0 * (nth 1 x 0 - nth 0 x 0 ^ 2) - 2 * (1 - nth 0 x 0)]>
           (take 1 (zeros (length x))
            ++ zip_with (λ '(m, m1) p1,
                  200 * (m - m1 ^ 2) - 400 * (p1 - m ^ 2) * m - 2 * (1 - m))
                 (zip (drop 1 (take (length x - 1) x)) (take (length x - 2) x))
                 (drop 2 x)
            ++ drop (length x - 1) (zeros (length x))))).
Proof.
  intros Hlen. unfold rosen_der.
  set (vals := zip_with _ (zip _ _) (drop 2 x)).
  assert (Hv : length vals = (length x - 2)%nat).
  { unfold vals. rewrite !length_zip_with, length_drop, !length_take, length_drop. lia. }
  assert (Hz : length (zeros (length x)) = length x) by apply length_replicate.
  unfold set_slice. rewrite Hz.
  destruct (decide _) as [_|Hn]; [|exfalso; apply Hn; lia].
  cbn [mbind option_bind].
  replace (Nat.min 1 (length x)) with 1%nat by lia.
  replace (Nat.max 1 (Nat.min (length x - 1) (length x))) with (length x - 1)%nat by lia.
  set (der := take 1 (zeros (length x)) ++ vals ++ drop (length x - 1) (zeros (length x))).
  assert (Hd : length der = length x).
  { unfold der. rewrite !length_app, length_take, length_drop, Hz, Hv. lia. }
  unfold get_item.
  rewrite (lookup_nth_lt x 0 0) by lia. cbn [mbind option_bind].
  rewrite (lookup_nth_lt x 1 0) by lia. cbn [mbind option_bind].
  rewrite set_item_Some by lia. cbn [mbind option_bind].
  unfold get_from_end.
  destruct (decide (1 ≤ 1 ≤ length x)%nat) as [_|Hn]; [|exfalso; lia].
  rewrite (lookup_nth_lt x (length x - 1) 0) by lia. cbn [mbind option_bind].
  destruct (decide (1 ≤ 2 ≤ length x)%nat) as [_|Hn]; [|exfalso; lia].
  rewrite (lookup_nth_lt x (length x - 2) 0) by lia. cbn [mbind option_bind].
  unfold set_from_end. rewrite length_insert, Hd.
  destruct (decide (1 ≤ 1 ≤ length x)%nat) as [_|Hn]; [|exfalso; lia].
  reflexivity.
Qed.

Lemma Forall_zero_zeros (n : nat) : Forall (λ q, q == 0) (zeros n).
Proof. apply Forall_replicate. reflexivity. Qed.

(** X7: rosen_der needs at least two coordinates (it raises on shorter
    input); on longer input it returns an array of the length of x, and at
    the point whose coordinates are all 1 every entry of it is 0. *)
Theorem rosen_der_shape_and_stationary_point (x : list Q) (n : nat) :
  ((length x < 2)%nat → rosen_der x = None)
  ∧ ((2 ≤ length x)%nat → ∃ der, rosen_der x = Some der ∧ length der = length x)
  ∧ ((2 ≤ n)%nat →
       ∃ der, rosen_der (replicate n 1) = Some der ∧ Forall (λ q, q == 0) der).
Proof.
  split; [|split].
  - intros Hlen. destruct x as [|a [|b x]]; [reflexivity|reflexivity|simpl in Hlen; lia].
  - intros Hlen. eexists. split; [apply rosen_der_unfold; exact Hlen|].
    rewrite !length_insert, !length_app, length_take, length_drop.
    rewrite !length_zip_with, length_drop, !length_take, length_drop.
    unfold zeros. rewrite length_replicate. lia.
  - intros Hn. eexists. split; [apply rosen_der_unfold; rewrite length_replicate; lia|].
    rewrite length_replicate.
    apply Forall_insert; [apply Forall_insert|].
    + apply Forall_app. split; [apply Forall_take, Forall_zero_zeros|].
      apply Forall_app. split; [|apply Forall_drop, Forall_zero_zeros].
      rewrite take_replicate, !drop_replicate, take_replicate.
      apply Forall_lookup. intros i q Hq.
      apply lookup_zip_with_Some in Hq as ([m m1] & p1 & -> & Hmm & Hp).
      apply lookup_zip_with_Some in Hmm as (m' & m1' & E & Hm & Hm1).
      injection E as <- <-.
      apply lookup_replicate in Hm as [-> _]. apply lookup_replicate in Hm1 as [-> _].
      apply lookup_replicate in Hp as [-> _]. reflexivity.
    + destruct n as [|[|n]]; [lia|lia|]. simpl. reflexivity.
    + destruct n as [|[|n]]; [lia|lia|].
      replace (S (S n) - 1)%nat with (S n) by lia.
      replace (S (S n) - 2)%nat with n by lia.
      assert (E1 : nth (S n) (replicate (S (S n)) 1) 0 = 1).
      { apply nth_lookup_Some with (d := 0). apply lookup_replicate_2. lia. }
      assert (E2 : nth n (replicate (S (S n)) 1) 0 = 1).
      { apply nth_lookup_Some with (d := 0). apply lookup_replicate_2. lia. }
      rewrite E1, E2. reflexivity.
Qed.

Lemma rosen_der_shape_and_stationary_point_witness :
  ∃ der, rosen_der (replicate 3 1) = Some der ∧ Forall (λ q, q == 0) der.
Proof.
  apply (proj2 (proj2 (rosen_der_shape_and_stationary_point [] 3))). lia.
Defined.

(** X8: for two coordinates rosen_der is the gradient of rosen: along
    every direction (h, k) the value of rosen is its value at (a, b) plus t
    times the directional derivative plus a remainder with the factor t^2. *)
Theorem rosen_der_is_gradient_2d (a b h k t : Q) :
  ∃ d0 d1, rosen_der [a; b] = Some [d0; d1]
    ∧ rosen [a + t * h; b + t * k]
      == rosen [a; b] + t * (d0 * h + d1 * k)
         + t ^ 2 * (h ^ 2 - 200 * (b - a ^ 2) * h ^ 2
                    + 100 * (k - 2 * a * h - t * h ^ 2) ^ 2).
Proof.
  eexists. eexists. split; [reflexivity|].
  unfold rosen, py_sum. simpl. ring.
Qed.

End Rosenbrock.

(** ** The custom minimizer *)

Section Custmin.
Import Py GradientDescent.

Lemma rosen_der_Some_length (x : list Q) :
  (2 ≤ length x)%nat → ∃ der, rosen_der x = Some der ∧ length der = length x.
Proof.
  intros Hlen. eexists. split; [apply rosen_der_unfold; exact Hlen|].
  rewrite !length_insert, !length_app, length_take, length_drop.
  rewrite !length_zip_with, length_drop, !length_take, length_drop.
  unfold zeros. rewrite length_replicate. lia.
Qed.


Context (fn : list Q → Q) (x0 : list Q) (maxfev : option nat) (alpha : Q).
Context (maxiter : nat) (tol : Q) (callback : bool) (ps0 : list (list Q)).



End Custmin.

Section CustminResults.
Import Py GradientDescent.






Lemma custmin_body_path (fn1 fn2 : list Q → Q) (maxfev : option nat)
    (alpha tol : Q) (callback : bool) (st1 st2 : custmin_state) :
  custmin_path st1 = custmin_path st2 →
  match custmin_body fn1 maxfev alpha tol callback st1,
        custmin_body fn2 maxfev alpha tol callback st2 with
  | Some (a, b1), Some (b, b2) => custmin_path a = custmin_path b ∧ b1 = b2
  | None, None => True
  | _, _ => False
  end.
Proof.
  unfold custmin_path. intros [= Hx Hc Hn Hi Hs Hp].
  unfold custmin_body. rewrite Hx, Hc, Hn, Hi, Hs, Hp.
  destruct (rosen_der (bestx st2)) as [der|]; cbn [mbind option_bind]; [|exact I].
  destruct maxfev as [m|]; [destruct (decide _)|]; split; reflexivity.
Qed.

Lemma custmin_loop_path (fuel : nat) (fn1 fn2 : list Q → Q) (maxfev : option nat)
    (alpha : Q) (maxiter : nat) (tol : Q) (callback : bool)
    (st1 st2 : custmin_state) :
  custmin_path st1 = custmin_path st2 →
  custmin_path <$> custmin_loop fuel fn1 maxfev alpha maxiter tol callback st1
  = custmin_path <$> custmin_loop fuel fn2 maxfev alpha maxiter tol callback st2.
Proof.
  revert st1 st2. induction fuel as [|fuel IH]; intros st1 st2 Hp.
  - cbn [custmin_loop]. pose proof Hp as Hp'.
    unfold custmin_path in Hp'. injection Hp' as Hx Hc Hn Hi Hs Hps.
    rewrite Hi, Hs, Hn. destruct (_ && _ && _); [reflexivity|].
    simpl. f_equal. exact Hp.
  - cbn [custmin_loop]. pose proof Hp as Hp'.
    unfold custmin_path in Hp'. injection Hp' as Hx Hc Hn Hi Hs Hps.
    rewrite Hi, Hs, Hn. destruct (_ && _ && _); [|simpl; f_equal; exact Hp].
    pose proof (custmin_body_path fn1 fn2 maxfev alpha tol callback st1 st2 Hp) as Hb.
    destruct (custmin_body fn1 maxfev alpha tol callback st1) as [[a b1]|],
             (custmin_body fn2 maxfev alpha tol callback st2) as [[b b2]|];
      try contradiction; [|reflexivity].
    destruct Hb as [Hab <-]. cbn [mbind option_bind].
    destruct b1; [simpl; f_equal; exact Hab|apply IH; exact Hab].
Qed.

(** X11: custmin always steps along rosen_der, whatever objective it is
    given: two calls that differ only in fun raise together or return the
    same x, nit, nfev and success and the same list ps. *)
Theorem custmin_ignores_objective_for_steps (fn1 fn2 : list Q → Q) (x0 : list Q)
    (maxfev : option nat) (alpha : Q) (maxiter : nat) (tol : Q)
    (callback : bool) (ps0 : list (list Q)) :
  match custmin fn1 x0 maxfev alpha maxiter tol callback ps0,
        custmin fn2 x0 maxfev alpha maxiter tol callback ps0 with
  | Some (r1, ps1), Some (r2, ps2) =>
      res_x r1 = res_x r2 ∧ res_nit r1 = res_nit r2 ∧ res_nfev r1 = res_nfev r2
      ∧ res_success r1 = res_success r2 ∧ ps1 = ps2
  | None, None => True
  | _, _ => False
  end.
Proof.
  unfold custmin.
  pose proof (custmin_loop_path maxiter fn1 fn2 maxfev alpha maxiter tol callback
                (mk_custmin_state x0 (fn1 x0) 1 0 true false ps0)
                (mk_custmin_state x0 (fn2 x0) 1 0 true false ps0) eq_refl) as H.
  destruct (custmin_loop maxiter fn1 _ _ _ _ _ _) as [s1|],
           (custmin_loop maxiter fn2 _ _ _ _ _ _) as [s2|];
    simpl in H; try discriminate; [|exact I].
  injection H as Hx Hc Hn Hi Hs Hp. cbn [mbind option_bind].
  cbn [res_x res_nit res_nfev res_success]. rewrite Hx, Hc, Hn, Hp. auto.
Qed.

Lemma py_sum_squares_zero (v : list Q) :
  Forall (λ q, q == 0) v → py_sum (map (λ q, q * q) v) == 0.
Proof.
  induction 1 as [|q v Hq _ IH]; [reflexivity|].
  cbn [map]. rewrite py_sum_cons, IH, Hq. ring.
Qed.

(** X12: started at a stationary point of rosen (such as the minimum) with
    a positive tolerance, custmin stops after one iteration with x equal to
    x0, nit = 1, nfev = 2, and reports success = False. *)
Theorem custmin_at_stationary_point (fn : list Q → Q) (x0 der : list Q)
    (maxfev : option nat) (alpha : Q) (maxiter : nat) (tol : Q)
    (callback : bool) (ps0 : list (list Q)) :
  rosen_der x0 = Some der → Forall (λ q, q == 0) der →
  0 < tol → (1 ≤ maxiter)%nat →
  ∃ r ps', custmin fn x0 maxfev alpha maxiter tol callback ps0 = Some (r, ps')
    ∧ res_nit r = 1%nat ∧ res_nfev r = 2%nat ∧ res_success r = false
    ∧ Forall2 Qeq (res_x r) x0.
Proof.
  intros Hder Hz Htol Hmax.
  assert (Hstep : Forall (λ q, q == 0) (vscale alpha der)).
  { unfold vscale. apply Forall_fmap. eapply Forall_impl; [exact Hz|].
    intros q Hq. simpl. rewrite Hq. ring. }
  assert (Hnorm : norm_lt (vscale alpha der) tol = true).
  { unfold norm_lt. destruct (Qlt_le_dec 0 tol) as [_|H]; [|lra].
    destruct (Qlt_le_dec _ _) as [_|H]; [reflexivity|].
    rewrite py_sum_squares_zero in H by exact Hstep.
    assert (0 < tol * tol) by (apply Qmult_lt_0_compat; exact Htol). lra. }
  assert (Hlen : length der = length x0).
  { destruct (decide (2 ≤ length x0)%nat) as [H2|H2].
    - destruct (rosen_der_Some_length x0 H2) as (d & E & Hl). congruence.
    - destruct x0 as [|a [|b x0]]; [discriminate|discriminate|simpl in H2; lia]. }
  assert (Hx : Forall2 Qeq (vsub x0 (vscale alpha der)) x0).
  { unfold vsub. clear Hder Hnorm. revert der Hlen Hz Hstep.
    induction x0 as [|a x0 IH]; intros [|d der] Hlen Hz Hstep; simpl in Hlen;
      try lia; [constructor|].
    cbn [vscale map zip_with]. inversion Hz; subst. constructor.
    - rewrite H1. ring.
    - apply IH; [lia|assumption|].
      unfold vscale. apply Forall_fmap. eapply Forall_impl; [eassumption|].
      intros q Hq. simpl. rewrite Hq. ring. }
  destruct maxiter as [|k]; [lia|].
  unfold custmin. cbn [custmin_loop improved stop niter andb negb].
  replace (0 <? S k)%nat with true by reflexivity.
  unfold custmin_body. cbn [bestx funcalls niter improved stop ps].
  rewrite Hder. cbn [mbind option_bind]. rewrite Hnorm.
  destruct maxfev as [m|]; [destruct (decide (m ≤ 2)%nat)|].
  - cbn [mbind option_bind]. eexists _, _. split; [reflexivity|].
    cbn [res_nit res_nfev res_success res_x niter funcalls bestx]. auto.
  - cbn [mbind option_bind]. destruct k; cbn [custmin_loop improved andb];
      eexists _, _; (split; [reflexivity|]);
      cbn [res_nit res_nfev res_success res_x niter funcalls bestx]; auto.
  - cbn [mbind option_bind]. destruct k; cbn [custmin_loop improved andb];
      eexists _, _; (split; [reflexivity|]);
      cbn [res_nit res_nfev res_success res_x niter funcalls bestx]; auto.
Qed.

Lemma custmin_at_stationary_point_witness :
  ∃ r ps', custmin rosen [1; 1] None 0.0002 100 0.001 true [[1; 1]] = Some (r, ps')
    ∧ res_nit r = 1%nat ∧ res_nfev r = 2%nat ∧ res_success r = false
    ∧ Forall2 Qeq (res_x r) [1; 1].
Proof.
  apply (custmin_at_stationary_point rosen [1; 1] [0 + 0 - 0; 0] None 0.0002 100
           0.001 true [[1; 1]]).
  - vm_compute. reflexivity.
  - repeat constructor.
  - reflexivity.
  - lia.
Defined.

End CustminResults.

(** ** Mutable default arguments, folds and generators *)

Section FunctionalMore.
Import Py Functional.

Lemma append_loop (st : gmap positive (list value)) (r : positive)
    (l : list value) (k : nat) :
  st !! r = Some l →
  for_range (λ i st, list_append st r (VInt (Z.of_nat i))) 0 k st
  = Some (<[r:=l ++ map (λ i, VInt (Z.of_nat i)) (seq 0 k)]> st).
Proof.
  intros Hr.
  destruct (for_range_inv (λ i st, list_append st r (VInt (Z.of_nat i)))
    (λ i st', st' = <[r:=l ++ map (λ i, VInt (Z.of_nat i)) (seq 0 i)]> st)
    0 k st) as (st' & E & ->).
  - simpl. rewrite app_nil_r. symmetry. apply insert_id. exact Hr.
  - intros i st1 _ ->. unfold list_append. rewrite lookup_insert_eq.
    cbn [mbind option_bind]. eexists. split; [reflexivity|].
    rewrite insert_insert_eq. f_equal.
    rewrite seq_S, map_app, app_assoc. reflexivity.
  - exact E.
Qed.

(** X13: h changes the list it is given: it returns the reference it was
    passed, and the list behind it has 0, ..., n-1 appended; every other
    list is untouched. *)
Theorem h_extends_its_argument (dflt : positive)
    (st : gmap positive (list value)) (n : Z) (xs : positive) (l : list value) :
  st !! xs = Some l →
  ∃ st', h dflt st n (Some xs) = Some (xs, st')
    ∧ st' !! xs = Some (l ++ range_values n)
    ∧ ∀ r, r ≠ xs → st' !! r = st !! r.
Proof.
  intros Hxs. unfold h. cbn [default]. rewrite (append_loop st xs l _ Hxs).
  cbn [mbind option_bind]. eexists. split; [reflexivity|].
  split; [apply lookup_insert_eq|]. intros r Hr. apply lookup_insert_ne. congruence.
Qed.

Lemma h_extends_its_argument_witness :
  ∃ st', h 1%positive {[ 1%positive := []; 2%positive := [VInt 1; VInt 2; VInt 3] ]}
           5 (Some 2%positive) = Some (2%positive, st')
    ∧ st' !! 2%positive = Some ([VInt 1; VInt 2; VInt 3] ++ range_values 5)
    ∧ ∀ r, r ≠ 2%positive →
        st' !! r
        = ({[ 1%positive := []; 2%positive := [VInt 1; VInt 2; VInt 3] ]}
             : gmap positive (list value)) !! r.
Proof.
  apply (h_extends_its_argument 1%positive
           {[ 1%positive := []; 2%positive := [VInt 1; VInt 2; VInt 3] ]}
           5 2%positive [VInt 1; VInt 2; VInt 3]).
  reflexivity.
Defined.

(** X14: calls of h without xs share one default list: each call returns
    that same object, so the second of two calls h(n), h(m) returns the
    first result with 0, ..., m-1 appended, and what the first call returned
    has changed with it. *)
Theorem h_default_accumulates (dflt : positive)
    (st : gmap positive (list value)) (n m : Z) (l : list value) :
  st !! dflt = Some l →
  ∃ st1 st2, h dflt st n None = Some (dflt, st1)
    ∧ st1 !! dflt = Some (l ++ range_values n)
    ∧ h dflt st1 m None = Some (dflt, st2)
    ∧ st2 !! dflt = Some (l ++ range_values n ++ range_values m).
Proof.
  intros Hd. unfold h. cbn [default]. rewrite (append_loop st dflt l _ Hd).
  cbn [mbind option_bind]. eexists. eexists.
  split; [reflexivity|]. split; [apply lookup_insert_eq|].
  rewrite (append_loop _ dflt _ _ (lookup_insert_eq _ _ _)).
  cbn [mbind option_bind]. split; [reflexivity|].
  rewrite lookup_insert_eq, <- app_assoc. reflexivity.
Qed.

Lemma h_default_accumulates_witness :
  ∃ st1 st2, h 1%positive {[ 1%positive := [] ]} 5 None = Some (1%positive, st1)
    ∧ st1 !! 1%positive = Some ([] ++ range_values 5)
    ∧ h 1%positive st1 5 None = Some (1%positive, st2)
    ∧ st2 !! 1%positive = Some ([] ++ range_values 5 ++ range_values 5).
Proof.
  apply (h_default_accumulates 1%positive {[ 1%positive := [] ]} 5 5 []).
  reflexivity.
Defined.

Lemma reduce_from_add_int (a : Z) (xs : list Z) :
  reduce_from add_int a xs = Some (a + rec_sum xs)%Z.
Proof.
  revert a; induction xs as [|x xs IH]; intros a; simpl; [f_equal; lia|].
  rewrite IH. f_equal. lia.
Qed.

(** X15: rec_sum is the left fold with +: it equals reduce(add, xs, 0) on
    every list and reduce(add, xs) on every non-empty list, where reduce
    raises on the empty list and rec_sum returns 0; and rec_sum of a
    concatenation is the sum of the two rec_sums. *)
Theorem rec_sum_is_reduce (xs ys : list Z) :
  reduce add_int xs (Some 0%Z) = Some (rec_sum xs)
  ∧ (xs ≠ [] → reduce add_int xs None = Some (rec_sum xs))
  ∧ reduce add_int [] None = None
  ∧ rec_sum [] = 0%Z
  ∧ rec_sum (xs ++ ys) = (rec_sum xs + rec_sum ys)%Z.
Proof.
  split; [apply reduce_from_add_int|]. split; [|split; [reflexivity|split; [reflexivity|]]].
  - intros Hne. destruct xs as [|x xs]; [contradiction|].
    simpl. apply reduce_from_add_int.
  - induction xs as [|x xs IH]; simpl; [reflexivity|]. rewrite IH. lia.
Qed.

Lemma rec_sum_is_reduce_witness :
  reduce add_int [1; 2; 3]%Z None = Some (rec_sum [1; 2; 3]%Z).
Proof.
  apply (proj1 (proj2 (rec_sum_is_reduce [1; 2; 3]%Z []))). discriminate.
Defined.

Lemma reduce_from_add_list {A : Type} (a : list A) (xs : list (list A)) :
  reduce_from add_list a xs = Some (a ++ concat xs).
Proof.
  revert a; induction xs as [|x xs IH]; intros a; simpl; [rewrite app_nil_r; reflexivity|].
  rewrite IH, app_assoc. reflexivity.
Qed.

Lemma flatten_loop_from {A : Type} (xs : list (list A)) (ys : list A) :
  fold_left (λ ys x, fold_left (λ ys y, ys ++ [y]) x ys) xs ys = ys ++ concat xs.
Proof.
  assert (Hin : ∀ (x zs : list A), fold_left (λ ys y, ys ++ [y]) x zs = zs ++ x).
  { induction x as [|y x IH]; intros zs; simpl; [rewrite app_nil_r; reflexivity|].
    rewrite IH, <- app_assoc. reflexivity. }
  revert ys; induction xs as [|x xs IH]; intros ys; simpl; [rewrite app_nil_r; reflexivity|].
  rewrite Hin, IH, app_assoc. reflexivity.
Qed.

(** X16: flattening a list of lists with reduce and + gives what the
    nested loop gives whenever the outer list is not empty; on the empty
    list the loop gives [] and reduce raises. *)
Theorem flatten_by_reduce {A : Type} (xs : list (list A)) :
  flatten_loop xs = concat xs
  ∧ (xs ≠ [] → reduce add_list xs None = Some (flatten_loop xs))
  ∧ flatten_loop ([] : list (list A)) = []
  ∧ reduce add_list ([] : list (list A)) None = None.
Proof.
  assert (Hf : flatten_loop xs = concat xs)
    by (unfold flatten_loop; rewrite flatten_loop_from; reflexivity).
  split; [exact Hf|]. split; [|split; reflexivity].
  intros Hne. destruct xs as [|x xs]; [contradiction|].
  rewrite Hf. simpl. apply reduce_from_add_list.
Qed.

Lemma flatten_by_reduce_witness :
  reduce add_list [[1; 2]; [3]; []; [4]]%Z None
  = Some (flatten_loop [[1; 2]; [3]; []; [4]]%Z).
Proof.
  apply (proj1 (proj2 (flatten_by_reduce [[1; 2]; [3]; []; [4]]%Z))). discriminate.
Defined.

Lemma fib_eager_spec (n : nat) :
  fib_eager n = Some (map (λ k, (fib (S k)).1) (seq 0 n)).
Proof.
  unfold fib_eager.
  destruct (for_range_inv
    (λ (i : nat) '(xs, a, b), Some (xs ++ [a], b, (a + b)%Z))
    (λ i st, st = (map (λ k, (fib (S k)).1) (seq 0 i),
                   (fib (S i)).1, (fib (S (S i))).1))
    0 n ([], 1%Z, 1%Z)) as (st & E & ->).
  - reflexivity.
  - intros i st _ ->. eexists. split; [reflexivity|].
    rewrite seq_S, map_app. cbn [map Nat.add].
    rewrite (fib_value_SS (S i)). reflexivity.
  - rewrite E. reflexivity.
Qed.

(** X17: fib_eager(n) is the list of the first n Fibonacci numbers as the
    recursive fib computes them: it has n entries and entry i is fib(i+1). *)
Theorem fib_eager_lists_fib (n : nat) :
  ∃ xs, fib_eager n = Some xs
    ∧ length xs = n
    ∧ ∀ i, (i < n)%nat → xs !! i = Some (fib (S i)).1.
Proof.
  eexists. split; [apply fib_eager_spec|].
  split; [rewrite length_map, length_seq; reflexivity|].
  intros i Hi. rewrite list_lookup_fmap, lookup_seq_lt by exact Hi. reflexivity.
Qed.

Lemma fib_drain_spec (k n i : nat) :
  (i + k = n)%nat →
  fib_drain k (mk_fib_gen n i (fib (S i)).1 (fib (S (S i))).1)
  = (map (λ j, (fib (S j)).1) (seq i k),
     mk_fib_gen n n (fib (S n)).1 (fib (S (S n))).1).
Proof.
  revert i; induction k as [|k IH]; intros i Hik.
  - replace i with n by lia. reflexivity.
  - cbn [fib_drain]. unfold fib_next. cbn [gen_i gen_n gen_a gen_b].
    destruct (decide (i < n)%nat) as [_|Hn]; [|lia].
    rewrite <- (fib_value_SS (S i)). rewrite (IH (S i)) by lia. reflexivity.
Qed.

(** X18: list(fib_lazy(n)) holds the values of fib_eager(n), and the
    generator is then used up: next raises StopIteration and a second pass
    over it sees nothing. *)
Theorem fib_lazy_yields_fib_eager_once (n : nat) :
  ∃ xs g, fib_list (fib_lazy n) = (xs, g)
    ∧ fib_eager n = Some xs
    ∧ fib_next g = None
    ∧ fib_list g = ([], g).
Proof.
  eexists. eexists. split.
  - unfold fib_list, fib_lazy. cbn [gen_n gen_i]. rewrite Nat.sub_0_r.
    exact (fib_drain_spec n n 0 eq_refl).
  - split; [apply fib_eager_spec|].
    split.
    + unfold fib_next. cbn [gen_i gen_n]. destruct (decide (n < n)%nat); [lia|reflexivity].
    + unfold fib_list. cbn [gen_i gen_n]. rewrite Nat.sub_diag. reflexivity.
Qed.

End FunctionalMore.

(** ** Variants of the matrix product *)

Section MatrixVariants.
Import Py Numba.

Lemma for_range_ext {St : Type} (f g : nat → St → option St) (lo n : nat) (s : St) :
  (∀ i st, (lo ≤ i < lo + n)%nat → f i st = g i st) →
  for_range f lo n s = for_range g lo n s.
Proof.
  revert lo s; induction n as [|n IH]; intros lo s H; [reflexivity|].
  simpl. rewrite (H lo s) by lia. destruct (g lo s) as [s'|]; [|reflexivity].
  simpl. apply IH. intros i st Hi. apply H. lia.
Qed.

(** Two well-formed arrays of one shape with the same entries are equal. *)
Lemma ndarray_ext (C D : ndarray) (m p : nat) :
  wf C → wf D → shape C = (m, p) → shape D = (m, p) →
  (∀ i j, (i < m)%nat → (j < p)%nat → get2 C i j = get2 D i j) →
  C = D.
Proof.
  destruct C as [sc cc], D as [sd cd]. unfold wf, get2; simpl.
  intros [Hrc Hcc] [Hrd Hcd] -> -> H. simpl in *. f_equal.
  rewrite Forall_lookup in Hcc, Hcd.
  apply list_eq. intros i.
  destruct (decide (i < m)%nat) as [Hi|Hi];
    [|rewrite !lookup_ge_None_2 by lia; reflexivity].
  destruct (lookup_lt_is_Some_2 cc i ltac:(lia)) as [rc Hc].
  destruct (lookup_lt_is_Some_2 cd i ltac:(lia)) as [rd Hd].
  rewrite Hc, Hd. f_equal. apply list_eq. intros j.
  pose proof (Hcc i rc Hc) as Hlc. pose proof (Hcd i rd Hd) as Hld.
  destruct (decide (j < p)%nat) as [Hj|Hj];
    [|rewrite !lookup_ge_None_2 by lia; reflexivity].
  specialize (H i j Hi Hj). rewrite Hc, Hd in H. exact H.
Qed.

(** Two nested loops that set one cell per step fill the whole array,
    whatever it held before. *)
Lemma fill_loops (cell : nat → nat → ndarray → option ndarray)
    (v : nat → nat → Q) (m p : nat) (C0 : ndarray) :
  (∀ i j C, (i < m)%nat → (j < p)%nat → wf C → shape C = (m, p) →
     ∃ C', cell i j C = Some C' ∧ wf C' ∧ shape C' = (m, p)
       ∧ get2 C' i j = Some (v i j)
       ∧ ∀ i' j', (i', j') ≠ (i, j) → get2 C' i' j' = get2 C i' j') →
  wf C0 → shape C0 = (m, p) →
  ∃ C', for_range (λ i C, for_range (λ j C, cell i j C) 0 p C) 0 m C0 = Some C'
    ∧ wf C' ∧ shape C' = (m, p)
    ∧ ∀ i j, (i < m)%nat → (j < p)%nat → get2 C' i j = Some (v i j).
Proof.
  intros Hcell Hw0 Hs0.
  destruct (for_range_inv (λ i C, for_range (λ j C, cell i j C) 0 p C)
    (λ i C, wf C ∧ shape C = (m, p)
       ∧ ∀ i' j, (i' < i)%nat → (j < p)%nat → get2 C i' j = Some (v i' j))
    0 m C0) as (C' & E & Hw & Hs & Hdone).
  - split; [exact Hw0|]. split; [exact Hs0|]. intros; lia.
  - intros i C1 Hi (Hw & Hs & Hdone).
    destruct (for_range_inv (λ j C, cell i j C)
      (λ j C, wf C ∧ shape C = (m, p)
         ∧ (∀ j', (j' < j)%nat → get2 C i j' = Some (v i j'))
         ∧ ∀ i' j', i' ≠ i → get2 C i' j' = get2 C1 i' j')
      0 p C1) as (C2 & E2 & Hw2 & Hs2 & Hrow & Hrest).
    + split; [exact Hw|]. split; [exact Hs|]. split; [intros; lia|reflexivity].
    + intros j C2 Hj (Hw2 & Hs2 & Hrow & Hrest).
      destruct (Hcell i j C2 ltac:(lia) ltac:(lia) Hw2 Hs2)
        as (C3 & E3 & Hw3 & Hs3 & Hg3 & Hrest3).
      exists C3. split; [exact E3|]. split; [exact Hw3|]. split; [exact Hs3|]. split.
      * intros j' Hj'. destruct (decide (j' = j)) as [->|Hne]; [exact Hg3|].
        rewrite Hrest3 by congruence. apply Hrow. lia.
      * intros i' j' Hne. rewrite Hrest3 by congruence. apply Hrest. exact Hne.
    + exists C2. split; [exact E2|]. split; [exact Hw2|]. split; [exact Hs2|].
      intros i' j Hi' Hj. destruct (decide (i' = i)) as [->|Hne].
      * apply Hrow. simpl. exact Hj.
      * rewrite Hrest by exact Hne. apply Hdone; lia.
  - exists C'. split; [exact E|]. split; [exact Hw|]. split; [exact Hs|].
    intros i j Hi Hj. apply Hdone; simpl; lia.
Qed.

Lemma dot_loop (A B : ndarray) (m n p i j : nat) :
  wf A → wf B → shape A = (m, n) → shape B = (n, p) →
  (i < m)%nat → (j < p)%nat →
  for_range (λ k d, a ← get2 A i k; b ← get2 B k j; Some (d + a * b)) 0 n 0
  = Some (dot A B i j n).
Proof.
  intros HA HB HsA HsB Hi Hj.
  destruct (for_range_inv
    (λ k d, a ← get2 A i k; b ← get2 B k j; Some (d + a * b))
    (λ k d, d = dot A B i j k) 0 n 0) as (d & E & ->).
  - reflexivity.
  - intros k d Hk ->.
    rewrite (get2_entry A i k) by (rewrite ?HsA; simpl; auto; lia). simpl.
    rewrite (get2_entry B k j) by (rewrite ?HsB; simpl; auto; lia). simpl.
    eexists. split; reflexivity.
  - exact E.
Qed.

(** X19: the variant that builds each sum in a local variable returns the
    same array as matrix_multiply on every pair of conforming arrays. *)
Theorem matrix_multiply_numba2_agrees (A B : ndarray) (m n p : nat) :
  wf A → wf B → shape A = (m, n) → shape B = (n, p) →
  ∃ C, matrix_multiply A B = Some C ∧ matrix_multiply_numba2 A B = Some C.
Proof.
  intros HA HB HsA HsB.
  destruct (outer_loop A B m n p HA HB HsA HsB) as (C & E & Hw & Hs & Hg).
  exists C. split; [unfold matrix_multiply; rewrite HsA, HsB; exact E|].
  unfold matrix_multiply_numba2. rewrite HsA, HsB.
  destruct (fill_loops
    (λ i j C, d ← for_range (λ k d, a ← get2 A i k; b ← get2 B k j; Some (d + a * b))
                    0 n 0; set2 C i j d)
    (λ i j, dot A B i j n) m p (zeros2 m p)) as (D & E' & Hw' & Hs' & Hg').
  - intros i j C1 Hi Hj Hw1 Hs1.
    rewrite (dot_loop A B m n p i j HA HB HsA HsB Hi Hj). cbn [mbind option_bind].
    destruct (set2_spec C1 i j (dot A B i j n) Hw1) as (C2 & E2 & Hw2 & Hs2 & Hg2 & Hr2);
      [rewrite Hs1; simpl; lia..|].
    exists C2. split; [exact E2|]. split; [exact Hw2|]. split; [congruence|].
    split; [exact Hg2|exact Hr2].
  - apply wf_zeros2.
  - reflexivity.
  - rewrite E'. f_equal. apply (ndarray_ext D C m p Hw' Hw Hs' Hs).
    intros i j Hi Hj. rewrite Hg, Hg' by assumption. reflexivity.
Qed.

Lemma matrix_multiply_numba2_agrees_witness :
  ∃ C, matrix_multiply (mk_ndarray (2%nat, 3%nat) [[1; 2; 3]; [4; 5; 6]])
                       (mk_ndarray (3%nat, 2%nat) [[1; 0]; [0; 1]; [2; 2]]) = Some C
    ∧ matrix_multiply_numba2 (mk_ndarray (2%nat, 3%nat) [[1; 2; 3]; [4; 5; 6]])
                             (mk_ndarray (3%nat, 2%nat) [[1; 0]; [0; 1]; [2; 2]]) = Some C.
Proof.
  apply (matrix_multiply_numba2_agrees
           (mk_ndarray (2%nat, 3%nat) [[1; 2; 3]; [4; 5; 6]])
           (mk_ndarray (3%nat, 2%nat) [[1; 0]; [0; 1]; [2; 2]]) 2%nat 3%nat 2%nat).
  - split; [reflexivity|]. repeat constructor.
  - split; [reflexivity|]. repeat constructor.
  - reflexivity.
  - reflexivity.
Defined.

Lemma for_range_raises {St : Type} (f : nat → St → option St) (lo n k : nat) (s : St) :
  (lo ≤ k < lo + n)%nat → (∀ st, f k st = None) → for_range f lo n s = None.
Proof.
  revert lo s; induction n as [|n IH]; intros lo s Hk Hf; [lia|].
  simpl. destruct (decide (k = lo)) as [->|Hne]; [rewrite Hf; reflexivity|].
  destruct (f lo s) as [s'|]; [|reflexivity]. simpl. apply IH; [lia|exact Hf].
Qed.

Lemma Qsum_ext_eq (f g : nat → Q) (n : nat) :
  (∀ k, (k < n)%nat → f k = g k) → Qsum f n = Qsum g n.
Proof.
  induction n as [|n IH]; intros H; simpl; [reflexivity|].
  rewrite IH by (intros; apply H; lia). rewrite (H n) by lia. reflexivity.
Qed.

Lemma wf_first_columns (A : ndarray) (m nA n : nat) :
  wf A → shape A = (m, nA) → (n ≤ nA)%nat →
  wf (first_columns n A) ∧ shape (first_columns n A) = (m, n).
Proof.
  intros [Hr Hc] Hs Hn. unfold first_columns, wf; simpl. rewrite Hs in *. simpl in *.
  split; [|reflexivity]. split; [rewrite length_map; exact Hr|].
  apply Forall_fmap. eapply Forall_impl; [exact Hc|].
  intros row Hrow. simpl in *. rewrite length_take. lia.
Qed.

Lemma get2_first_columns (A : ndarray) (n i k : nat) :
  (k < n)%nat → get2 (first_columns n A) i k = get2 A i k.
Proof.
  intros Hk. unfold get2, first_columns; simpl. rewrite list_lookup_fmap.
  destruct (cells A !! i) as [row|]; simpl; [|reflexivity].
  apply lookup_take_lt. exact Hk.
Qed.

(** X20: matrix_multiply does not check that the shapes conform.  When B
    has no more rows than A has columns it returns, without an error, the
    product of the first n columns of A with B (n the number of rows of B);
    when B has more rows the first out-of-range read of A raises. *)
Theorem matrix_multiply_shapes_unchecked (A B : ndarray) (m nA n p : nat) :
  wf A → wf B → shape A = (m, nA) → shape B = (n, p) →
  ((n ≤ nA)%nat →
     ∃ C, matrix_multiply A B = Some C ∧ wf C ∧ shape C = (m, p)
       ∧ ∀ i j, (i < m)%nat → (j < p)%nat →
           get2 C i j = Some (Qsum (λ k, entry A i k * entry B k j) n))
  ∧ ((nA < n)%nat → (0 < m)%nat → (0 < p)%nat → matrix_multiply A B = None).
Proof.
  intros HA HB HsA HsB. split.
  - intros Hn.
    destruct (wf_first_columns A m nA n HA HsA Hn) as [HA' HsA'].
    destruct (outer_loop (first_columns n A) B m n p HA' HB HsA' HsB)
      as (C & E & Hw & Hs & Hg).
    exists C. split; [|split; [exact Hw|split; [exact Hs|]]].
    + unfold matrix_multiply. rewrite HsA, HsB. rewrite <- E.
      apply for_range_ext. intros i C1 Hi.
      apply for_range_ext. intros j C2 Hj.
      apply for_range_ext. intros k C3 Hk.
      unfold matrix_multiply_step. rewrite get2_first_columns by lia. reflexivity.
    + intros i j Hi Hj. rewrite (Hg i j Hi Hj). f_equal. unfold dot.
      apply Qsum_ext_eq. intros k Hk. f_equal.
      assert (Hsome : Some (entry (first_columns n A) i k) = Some (entry A i k)).
      { rewrite <- (get2_entry A i k) by (rewrite ?HsA; simpl; auto; lia).
        rewrite <- (get2_entry (first_columns n A) i k)
          by (rewrite ?HsA'; simpl; auto; lia).
        apply get2_first_columns. exact Hk. }
      congruence.
  - intros Hn Hm Hp. unfold matrix_multiply. rewrite HsA, HsB.
    apply (for_range_raises _ 0 m 0); [lia|]. intros C1.
    apply (for_range_raises _ 0 p 0); [lia|]. intros C2.
    apply (for_range_raises _ 0 n nA); [lia|]. intros C3.
    unfold matrix_multiply_step.
    assert (Hnone : get2 A 0 nA = None).
    { unfold get2. destruct HA as [Hr Hc]. rewrite Forall_lookup in Hc.
      destruct (cells A !! 0%nat) as [row|] eqn:Hrow; simpl; [|reflexivity].
      apply lookup_ge_None_2. rewrite (Hc 0%nat row Hrow), HsA. simpl. lia. }
    rewrite Hnone. reflexivity.
Qed.

Lemma matrix_multiply_shapes_unchecked_witness :
  ((1 ≤ 2)%nat →
     ∃ C, matrix_multiply (mk_ndarray (1%nat, 2%nat) [[1; 2]])
                          (mk_ndarray (1%nat, 1%nat) [[3]]) = Some C
       ∧ wf C ∧ shape C = (1%nat, 1%nat)
       ∧ ∀ i j, (i < 1)%nat → (j < 1)%nat →
           get2 C i j
           = Some (Qsum (λ k, entry (mk_ndarray (1%nat, 2%nat) [[1; 2]]) i k
                              * entry (mk_ndarray (1%nat, 1%nat) [[3]]) k j) 1%nat))
  ∧ ((2 < 1)%nat → (0 < 1)%nat → (0 < 1)%nat →
       matrix_multiply (mk_ndarray (1%nat, 2%nat) [[1; 2]])
                       (mk_ndarray (1%nat, 1%nat) [[3]]) = None).
Proof.
  apply (matrix_multiply_shapes_unchecked
           (mk_ndarray (1%nat, 2%nat) [[1; 2]])
           (mk_ndarray (1%nat, 1%nat) [[3]]) 1%nat 2%nat 1%nat 1%nat).
  - split; [reflexivity|]. repeat constructor.
  - split; [reflexivity|]. repeat constructor.
  - reflexivity.
  - reflexivity.
Defined.

End MatrixVariants.

(** ** Variants of the Monte Carlo estimate *)

Section MonteCarloVariants.
Import Py.

Lemma mc_pi_rows_S (n : nat) (draws : nat → Q) :
  Numba.mc_pi_rows (S n) draws
  = Numba.mc_pi_rows n draws ++ [(draws (2 * n)%nat, draws (S (2 * n)))].
Proof. unfold Numba.mc_pi_rows. rewrite seq_S, map_app. reflexivity. Qed.

Lemma hits_snoc (rows : list (Q * Q)) (row : Q * Q) :
  Z.of_nat (length (filter (λ r, Numba.inside r = true) (rows ++ [row])))
  = (Z.of_nat (length (filter (λ r, Numba.inside r = true) rows))
     + (if Numba.inside row then 1 else 0))%Z.
Proof.
  rewrite filter_app, length_app, Nat2Z.inj_add. f_equal.
  rewrite filter_cons, filter_nil.
  destruct (decide (Numba.inside row = true)) as [H|H].
  - rewrite H. reflexivity.
  - destruct (Numba.inside row); [contradiction|reflexivity].
Qed.

Lemma mc_pi_loop_counts (draws : nat → Q) (k : nat) :
  for_range (Parallel.mc_pi_body draws) 0 k (0%Z, 0%nat)
  = Some (Z.of_nat (length (filter (λ r, Numba.inside r = true)
                              (Numba.mc_pi_rows k draws))), (2 * k)%nat).
Proof.
  destruct (for_range_inv (Parallel.mc_pi_body draws)
    (λ i st, st = (Z.of_nat (length (filter (λ r, Numba.inside r = true)
                                       (Numba.mc_pi_rows i draws))), (2 * i)%nat))
    0 k (0%Z, 0%nat)) as (st & E & ->).
  - reflexivity.
  - intros i st _ ->. unfold Parallel.mc_pi_body, Parallel.uniform.
    rewrite mc_pi_rows_S, hits_snoc.
    change (Numba.inside (draws (2 * i)%nat, draws (S (2 * i))))
      with (if Qlt_le_dec (draws (2 * i)%nat ^ 2 + draws (S (2 * i)) ^ 2) 1
            then true else false).
    replace (2 * S i)%nat with (S (S (2 * i))) by lia.
    destruct (Qlt_le_dec _ 1); eexists; (split; [reflexivity|]); f_equal; lia.
  - exact E.
Qed.

Lemma mc_pi_unrolled_loop (draws : nat → Q) (k : nat) :
  for_range (Numba.mc_pi_unrolled_body draws) 0 k (0%Z, 0%nat)
  = for_range (Parallel.mc_pi_body draws) 0 k (0%Z, 0%nat).
Proof.
  apply for_range_ext. intros i [s pos] _.
  unfold Numba.mc_pi_unrolled_body, Parallel.mc_pi_body, Parallel.uniform.
  destruct (Qlt_le_dec (draws pos * draws pos + draws (S pos) * draws (S pos)) 1) as [H|H],
           (Qlt_le_dec (draws pos ^ 2 + draws (S pos) ^ 2) 1) as [H'|H'];
    try reflexivity; exfalso; simpl in H'; lra.
Qed.

(** X21: on the same sequence of draws and for n >= 1, the vectorized
    mc_pi and the unrolled loop of the Numba notebook return exactly the
    value of the mc_pi loop of the parallel notebook; for negative n the
    loops return 0 where the vectorized version raises. *)
Theorem mc_pi_variants_agree (n : Z) (draws : nat → Q) :
  ((1 ≤ n)%Z →
     ∃ r, Parallel.mc_pi n draws = Some r
       ∧ Numba.mc_pi n draws = Some r
       ∧ Numba.mc_pi_numba_unrolled n draws = Some r)
  ∧ ((n < 0)%Z →
     Numba.mc_pi n draws = None
     ∧ ∃ r, Parallel.mc_pi n draws = Some r
         ∧ Numba.mc_pi_numba_unrolled n draws = Some r ∧ r == 0).
Proof.
  split.
  - intros Hn.
    assert (Hpos : ¬ inject_Z n == 0).
    { intros H. unfold Qeq in H. simpl in H. lia. }
    unfold Numba.mc_pi_numba_unrolled. rewrite (mc_pi_unrolled_loop draws (Z.to_nat n)).
    unfold Parallel.mc_pi, Numba.mc_pi. eexists.
    rewrite mc_pi_loop_counts. cbn [mbind option_bind fst].
    destruct (decide (n < 0)%Z); [lia|].
    rewrite div_Some by exact Hpos. repeat split; reflexivity.
  - intros Hn.
    assert (Hneg : ¬ inject_Z n == 0).
    { intros H. unfold Qeq in H. simpl in H. lia. }
    unfold Parallel.mc_pi, Numba.mc_pi, Numba.mc_pi_numba_unrolled.
    destruct (decide (n < 0)%Z); [|lia]. split; [reflexivity|].
    replace (Z.to_nat n) with 0%nat by lia. cbn [for_range mbind option_bind fst].
    eexists. rewrite div_Some by exact Hneg. repeat split; reflexivity.
Qed.

Lemma mc_pi_variants_agree_witness :
  ∃ r, Parallel.mc_pi 2 (λ _, 1 # 2) = Some r
    ∧ Numba.mc_pi 2 (λ _, 1 # 2) = Some r
    ∧ Numba.mc_pi_numba_unrolled 2 (λ _, 1 # 2) = Some r.
Proof. apply (proj1 (mc_pi_variants_agree 2 (λ _, 1 # 2))). lia. Defined.

End MonteCarloVariants.

(** ** Escape times of the Mandelbrot iteration *)

Section Mandelbrot.
Import Py Numba.

Lemma mandel_from_bounds (c z : Q * Q) (i k : nat) :
  (i ≤ mandel_from c z i k ≤ i + k)%nat.
Proof.
  revert z i; induction k as [|k IH]; intros z i; cbn [mandel_from]; [lia|].
  destruct (Qlt_le_dec _ 4); [|lia].
  specialize (IH (csquare_add z c) (S i)). lia.
Qed.

Lemma mandel_from_stable (c z : Q * Q) (i k d : nat) :
  (mandel_from c z i k < i + k)%nat →
  mandel_from c z i (k + d) = mandel_from c z i k.
Proof.
  revert z i; induction k as [|k IH]; intros z i H; cbn [mandel_from] in *; [lia|].
  cbn [Nat.add mandel_from].
  destruct (Qlt_le_dec _ 4); [|reflexivity].
  apply IH. lia.
Qed.

(** X22: the colour mandel returns is an escape time: it is at most
    max_iters, and once it is below max_iters it is final, that is, every
    larger iteration budget returns the same colour. *)
Theorem mandel_escape_time (x y : Q) (max_iters more : nat) :
  (mandel x y max_iters ≤ max_iters)%nat
  ∧ ((mandel x y max_iters < max_iters)%nat →
       mandel x y (max_iters + more) = mandel x y max_iters).
Proof.
  unfold mandel. split.
  - pose proof (mandel_from_bounds (x, y) (0, 0) 0 max_iters). lia.
  - intros H. apply mandel_from_stable. simpl. exact H.
Qed.

Lemma mandel_escape_time_witness : mandel 1 0 (5 + 3) = mandel 1 0 5.
Proof. apply (proj2 (mandel_escape_time 1 0 5 3)). vm_compute. lia. Defined.

(** X23: a point at distance 2 or more from the origin escapes at once:
    its colour is 0 for every positive iteration budget. *)
Theorem mandel_far_points (x y : Q) (max_iters : nat) :
  4 <= x * x + y * y → (0 < max_iters)%nat → mandel x y max_iters = 0%nat.
Proof.
  intros Hfar Hn. destruct max_iters as [|k]; [lia|].
  unfold mandel. cbn [mandel_from csquare_add fst snd].
  destruct (Qlt_le_dec _ 4) as [H|H]; [exfalso; lra|reflexivity].
Qed.

Lemma mandel_far_points_witness : mandel 2 1 50 = 0%nat.
Proof. apply (mandel_far_points 2 1 50); [vm_compute; discriminate|lia]. Defined.

Lemma mandel_from_stays (c z : Q * Q) (i k : nat) :
  c.1 * c.1 + c.2 * c.2 <= 1 # 16 →
  z.1 * z.1 + z.2 * z.2 <= 1 # 4 →
  mandel_from c z i k = (i + k)%nat.
Proof.
  intros Hc. revert z i; induction k as [|k IH]; intros z i Hz; cbn [mandel_from]; [lia|].
  destruct c as [x y], z as [a b]. cbn [fst snd csquare_add] in *.
  assert (Hnext : (a * a - b * b + x) * (a * a - b * b + x)
                  + (a * b + b * a + y) * (a * b + b * a + y) <= 1 # 4).
  { pose proof (Qsq_nonneg (a * a - b * b - x)) as H1.
    pose proof (Qsq_nonneg (a * b + b * a - y)) as H2.
    pose proof (Qsq_nonneg a) as Ha. pose proof (Qsq_nonneg b) as Hb.
    assert (H3 : 0 <= ((1 # 4) - (a * a + b * b)) * ((1 # 4) + (a * a + b * b)))
      by (apply Qmult_le_0_compat; lra).
    lra. }
  destruct (Qlt_le_dec _ 4) as [_|H]; [|exfalso; lra].
  rewrite IH; [lia|]. cbn [fst snd csquare_add]. exact Hnext.
Qed.

(** X24: a point within distance 1/4 of the origin never escapes: its
    colour is max_iters for every iteration budget. *)
Theorem mandel_near_origin (x y : Q) (max_iters : nat) :
  x * x + y * y <= 1 # 16 → mandel x y max_iters = max_iters.
Proof.
  intros Hc. unfold mandel. rewrite mandel_from_stays; [reflexivity|exact Hc|].
  vm_compute. discriminate.
Qed.

Lemma mandel_near_origin_witness : mandel 0.2 0.1 50 = 50%nat.
Proof. apply (mandel_near_origin 0.2 0.1 50). vm_compute. discriminate. Defined.

Lemma nb_inner1d_body_spec (u v res : list Q) :
  (length u ≤ length v)%nat → (0 < length res)%nat →
  nb_inner1d_body u v res
  = Some (<[0%nat:=Qsum (λ i, nth i u 0 * nth i v 0) (length u)]> res).
Proof.
  intros Hlen Hres. unfold nb_inner1d_body.
  rewrite set_item_Some by exact Hres. cbn [mbind option_bind].
  destruct (for_range_inv (λ i res,
      ui ← get_item u i; vi ← get_item v i;
      r ← get_item res 0; set_item res 0 (r + ui * vi))
    (λ i r, r = <[0%nat:=Qsum (λ i, nth i u 0 * nth i v 0) i]> res)
    0 (length u) (<[0%nat:=0]> res)) as (r & E & ->).
  - reflexivity.
  - intros i r Hi ->. unfold get_item.
    rewrite (lookup_nth_lt u i 0) by lia. cbn [mbind option_bind].
    rewrite (lookup_nth_lt v i 0) by lia. cbn [mbind option_bind].
    rewrite list_lookup_insert_eq by lia. cbn [mbind option_bind].
    rewrite set_item_Some by (rewrite length_insert; lia).
    eexists. split; [reflexivity|]. rewrite list_insert_insert_eq. reflexivity.
  - exact E.
Qed.

Lemma inner1d_core_spec (junk : Q) (u v : list Q) :
  length u = length v →
  inner1d_core junk u v = Some (Qsum (λ i, nth i u 0 * nth i v 0) (length u)).
Proof.
  intros Hlen. unfold inner1d_core.
  rewrite nb_inner1d_body_spec by (simpl; lia). reflexivity.
Qed.

Lemma gufunc_loop_spec (junk : nat → Q) (n : nat) (rowsA rowsB : list (list Q)) (i0 : nat) :
  Forall (λ row, length row = n) rowsA → Forall (λ row, length row = n) rowsB →
  length rowsA = length rowsB →
  gufunc_loop junk i0 (zip rowsA rowsB)
  = Some (map (λ i, Qsum (λ k, nth k (nth i rowsA []) 0 * nth k (nth i rowsB []) 0) n)
            (seq 0 (length rowsA))).
Proof.
  revert rowsB i0. induction rowsA as [|u rowsA IH]; intros [|v rowsB] i0 HA HB Hlen;
    try discriminate; [reflexivity|].
  apply Forall_cons in HA as [Hu HA]. apply Forall_cons in HB as [Hv HB].
  cbn [zip zip_with gufunc_loop].
  rewrite inner1d_core_spec by congruence. cbn [mbind option_bind].
  rewrite (IH rowsB (S i0) HA HB) by (simpl in Hlen; lia). cbn [mbind option_bind].
  cbn [length seq map nth]. rewrite Hu. do 2 f_equal.
  rewrite <- seq_shift, map_map. reflexivity.
Qed.

(** X25: under its layout (n),(n)->() nb_inner1d returns the inner
    product.  On two vectors of one length it returns the sum of u[i]*v[i],
    whatever the output slot held before the call, and on vectors of
    different lengths it raises; on two matrices of one shape, as in
    nb_inner1d(xs, xs), it returns one inner product per row, the values
    of einsum('ij,ij->i'). *)
Theorem nb_inner1d_is_inner_product (junk : nat → Q) (u v : list Q)
    (A B : ndarray) (m n : nat) :
  nb_inner1d (junk 0%nat) u v
  = (if decide (length u = length v)
     then Some (Qsum (λ i, nth i u 0 * nth i v 0) (length u)) else None)
  ∧ (wf A → wf B → shape A = (m, n) → shape B = (m, n) →
     nb_inner1d_rows junk A B
     = Some (map (λ i, Qsum (λ k, entry A i k * entry B i k) n) (seq 0 m))).
Proof.
  split.
  - unfold nb_inner1d. destruct (decide (length u = length v)) as [Hlen|_];
      [apply inner1d_core_spec; exact Hlen|reflexivity].
  - intros [HlA HrA] [HlB HrB] HsA HsB. rewrite HsA in HlA, HrA. rewrite HsB in HlB, HrB.
    simpl in HlA, HrA, HlB, HrB.
    unfold nb_inner1d_rows, broadcast_rows. rewrite HsA, HsB.
    rewrite !decide_True by reflexivity. cbn [mbind option_bind].
    rewrite (gufunc_loop_spec junk n (cells A) (cells B) 0 HrA HrB) by congruence.
    rewrite HlA. reflexivity.
Qed.

Lemma nb_inner1d_is_inner_product_witness :
  nb_inner1d_rows (λ _, 7) {| shape := (2, 3)%nat; cells := [[1; 2; 3]; [4; 5; 6]] |}
                           {| shape := (2, 3)%nat; cells := [[1; 0; 1]; [0; 1; 0]] |}
  = Some (map (λ i, Qsum (λ k,
                 entry {| shape := (2, 3)%nat; cells := [[1; 2; 3]; [4; 5; 6]] |} i k
                 * entry {| shape := (2, 3)%nat; cells := [[1; 0; 1]; [0; 1; 0]] |} i k) 3)
            (seq 0 2)).
Proof.
  apply (proj2 (nb_inner1d_is_inner_product (λ _, 7) [] []
                  {| shape := (2, 3)%nat; cells := [[1; 2; 3]; [4; 5; 6]] |}
                  {| shape := (2, 3)%nat; cells := [[1; 0; 1]; [0; 1; 0]] |} 2 3));
    try reflexivity; (split; [reflexivity|repeat constructor]).
Defined.

End Mandelbrot.

(** ** More on the shared counter *)

Section CounterMore.
Import Py Parallel.

Lemma step_moves_left (task : list instr) (i : nat) (P P' : pool) :
  step task i P = Some P' → moves_left task P = (moves_left task P' + 1)%Z.
Proof.
  unfold step, moves_left.
  destruct (workers P !! i) as [w|] eqn:Hw; [|discriminate]. simpl.
  pose proof (Zsum_insert (λ c, Z.of_nat (length c)) (workers P) i w) as Hins.
  destruct (code w) as [|[| | |] c] eqn:Hc.
  - destruct (pending P) as [|k]; [discriminate|]. intros [= <-]. simpl pending.
    simpl workers. rewrite Hins by exact Hw. simpl code. simpl length. lia.
  - destruct (lock P); [discriminate|]. intros [= <-]. simpl pending. simpl workers.
    rewrite Hins by exact Hw. simpl code. simpl length. lia.
  - intros [= <-]. simpl pending. simpl workers.
    rewrite Hins by exact Hw. simpl code. simpl length. lia.
  - intros [= <-]. simpl pending. simpl workers.
    rewrite Hins by exact Hw. simpl code. simpl length. lia.
  - destruct (lock P); [|discriminate]. intros [= <-]. simpl pending. simpl workers.
    rewrite Hins by exact Hw. simpl code. simpl length. lia.
Qed.

Lemma run_moves_left (task : list instr) (sched : list nat) (P P' : pool) :
  run task sched P = Some P' →
  moves_left task P = (moves_left task P' + Z.of_nat (length sched))%Z.
Proof.
  revert P; induction sched as [|i sched IH]; intros P Hrun; simpl in Hrun.
  - injection Hrun as <-. simpl. lia.
  - destruct (step task i P) as [P1|] eqn:E; [|discriminate]. simpl in Hrun.
    rewrite (step_moves_left task i P P1 E), (IH P1 Hrun). simpl length. lia.
Qed.

Lemma moves_left_init (task : list instr) (procs tasks : nat) :
  moves_left task (init procs tasks)
  = (Z.of_nat (S (length task)) * Z.of_nat tasks)%Z.
Proof.
  unfold moves_left, init. simpl pending. simpl workers.
  rewrite Zsum_zero; [lia|].
  intros i w H. apply lookup_replicate in H as [-> _]. reflexivity.
Qed.

Lemma moves_left_nonneg (task : list instr) (P : pool) : (0 ≤ moves_left task P)%Z.
Proof.
  unfold moves_left.
  assert (0 ≤ Zsum (λ c, Z.of_nat (length c)) (workers P))%Z
    by (apply Zsum_nonneg; intros c; simpl; lia).
  assert (0 ≤ Z.of_nat (S (length task)) * Z.of_nat (pending P))%Z
    by (apply Z.mul_nonneg_nonneg; lia).
  lia.
Qed.

Lemma moves_left_finished (task : list instr) (P : pool) :
  finished P → moves_left task P = 0%Z.
Proof.
  intros [Hp Hidle]. rewrite Forall_lookup in Hidle. unfold moves_left.
  rewrite Hp, Zsum_zero; [lia|].
  intros i w Hw. rewrite (Hidle i w Hw). reflexivity.
Qed.

(** X26: every interleaving is finite: after any sequence of moves of the
    workers, with or without the lock, at most 5 moves per call (locked) or
    3 moves per call (unlocked) have been made, and when the map has
    returned exactly that many were made. *)
Theorem pool_map_terminates (procs tasks : nat) (sched : list nat) (P : pool) :
  (run count_with_lock sched (init procs tasks) = Some P →
     (length sched ≤ 5 * tasks)%nat
     ∧ (finished P → length sched = (5 * tasks)%nat))
  ∧ (run count_with_value sched (init procs tasks) = Some P →
     (length sched ≤ 3 * tasks)%nat
     ∧ (finished P → length sched = (3 * tasks)%nat)).
Proof.
  split; intros Hrun; apply run_moves_left in Hrun;
    rewrite moves_left_init in Hrun; simpl length in Hrun.
  - pose proof (moves_left_nonneg count_with_lock P) as H0.
    split; [lia|]. intros Hfin.
    rewrite (moves_left_finished count_with_lock P Hfin) in Hrun. lia.
  - pose proof (moves_left_nonneg count_with_value P) as H0.
    split; [lia|]. intros Hfin.
    rewrite (moves_left_finished count_with_value P Hfin) in Hrun. lia.
Qed.

Lemma pool_map_terminates_witness :
  (length [0; 0; 0]%nat ≤ 3 * 1)%nat
  ∧ (finished {| val := 1; lock := false; pending := 0;
                 workers := [{| code := []; tmp := 0 |}] |} →
     length [0; 0; 0]%nat = (3 * 1)%nat).
Proof.
  apply (proj2 (pool_map_terminates 1 1 [0; 0; 0]%nat
                  {| val := 1; lock := false; pending := 0;
                     workers := [{| code := []; tmp := 0 |}] |})).
  reflexivity.
Defined.

(** X27: the lock gives mutual exclusion: in every state that the locked
    counter can reach, when one worker is between its acquire and its
    release no other worker is. *)
Theorem lock_mutual_exclusion (procs tasks : nat) (sched : list nat) (P : pool)
    (i j : nat) (w u : worker) :
  run count_with_lock sched (init procs tasks) = Some P →
  workers P !! i = Some w → workers P !! j = Some u → i ≠ j →
  holds (code w) = 1%Z → holds (code u) = 0%Z.
Proof.
  intros Hrun Hw Hu Hne Hhw.
  destruct (run_lock_inv tasks sched _ P (lock_inv_init procs tasks) Hrun)
    as (_ & _ & Hlock & _).
  apply (holds_unique (workers P) i j w u Hw Hhw); [|exact Hu|congruence].
  rewrite Hlock. destruct (lock P); lia.
Qed.

Lemma lock_mutual_exclusion_witness :
  holds (code {| code := [Acquire; Load; Store; Release]; tmp := 0 |}) = 0%Z.
Proof.
  apply (lock_mutual_exclusion 2 2 [0; 0; 1]%nat
           {| val := 0; lock := true; pending := 0;
              workers := [{| code := [Load; Store; Release]; tmp := 0 |};
                          {| code := [Acquire; Load; Store; Release]; tmp := 0 |}] |}
           0 1
           {| code := [Load; Store; Release]; tmp := 0 |}
           {| code := [Acquire; Load; Store; Release]; tmp := 0 |});
    [reflexivity|reflexivity|reflexivity|lia|reflexivity].
Defined.

Lemma unwritten_nonneg (c : list instr) : (0 ≤ unwritten c)%Z.
Proof. unfold unwritten. destruct (decide _); lia. Qed.

Lemma value_inv_init (procs tasks : nat) : value_inv tasks (init procs tasks).
Proof.
  unfold value_inv, init; simpl.
  assert (Hidle : ∀ i w, replicate procs {| code := []; tmp := 0 |} !! i = Some w →
                         code w = []).
  { intros i w H. apply lookup_replicate in H as [-> _]. reflexivity. }
  assert (Hz : Zsum unwritten (replicate procs {| code := []; tmp := 0 |}) = 0%Z).
  { apply Zsum_zero. intros i w H. rewrite (Hidle i w H). reflexivity. }
  split; [intros i w H; left; eauto|]. split; [lia|]. split; [lia|].
  split; [|right; lia].
  intros i w H Hc. rewrite (Hidle i w H) in Hc. discriminate.
Qed.

(** Every move of a worker running [count_with_value] keeps the invariant. *)
Lemma step_value_inv (tasks i : nat) (P P' : pool) :
  value_inv tasks P → step count_with_value i P = Some P' → value_inv tasks P'.
Proof.
  intros (Hok & Hv & Hsum & Htmp & Hone) Hstep. unfold step in Hstep.
  destruct (workers P !! i) as [w|] eqn:Hw; [|discriminate]. simpl in Hstep.
  pose proof (Hok i w Hw) as Hc.
  pose proof (Zsum_insert unwritten (workers P) i w) as Hu.
  pose proof (Zsum_nonneg unwritten (workers P) unwritten_nonneg) as Hnn.
  destruct Hc as [Hc|[Hc|Hc]]; rewrite Hc in Hstep, Hu.
  - destruct (pending P) as [|k] eqn:Hp; [discriminate|]. injection Hstep as <-.
    unfold value_inv; simpl.
    rewrite Hu by exact Hw. simpl code. change (unwritten []) with 0%Z.
    change (unwritten count_with_value) with 1%Z.
    split; [|split; [exact Hv|split; [lia|split; [|lia]]]].
    + intros j u Hj. apply list_lookup_insert_Some in Hj as [(-> & <- & _)|(Hne & Hj)];
        [right; left; reflexivity|eauto].
    + intros j u Hj Hcode.
      apply list_lookup_insert_Some in Hj as [(-> & <- & _)|(Hne & Hj)];
        [discriminate|].
      destruct (Htmp j u Hj Hcode). lia.
  - injection Hstep as <-. unfold value_inv; simpl.
    rewrite Hu by exact Hw. simpl code. change (unwritten [Load; Store]) with 1%Z.
    change (unwritten [Store]) with 1%Z.
    split; [|split; [exact Hv|split; [lia|split; [|lia]]]].
    + intros j u Hj. apply list_lookup_insert_Some in Hj as [(-> & <- & _)|(Hne & Hj)];
        [right; right; reflexivity|eauto].
    + intros j u Hj Hcode.
      apply list_lookup_insert_Some in Hj as [(-> & <- & _)|(Hne & Hj)];
        [simpl; lia|].
      destruct (Htmp j u Hj Hcode). lia.
  - injection Hstep as <-. unfold value_inv; simpl.
    destruct (Htmp i w Hw Hc) as [Ht0 Ht1].
    rewrite Hu by exact Hw. simpl code. change (unwritten [Store]) with 1%Z.
    change (unwritten []) with 0%Z.
    split; [|split; [lia|split; [lia|split; [|lia]]]].
    + intros j u Hj. apply list_lookup_insert_Some in Hj as [(-> & <- & _)|(Hne & Hj)];
        [left; reflexivity|eauto].
    + intros j u Hj Hcode.
      apply list_lookup_insert_Some in Hj as [(-> & <- & _)|(Hne & Hj)];
        [discriminate|].
      destruct (Htmp j u Hj Hcode). lia.
Qed.

Lemma run_value_inv (tasks : nat) (sched : list nat) (P P' : pool) :
  value_inv tasks P → run count_with_value sched P = Some P' → value_inv tasks P'.
Proof.
  revert P; induction sched as [|i sched IH]; intros P HP Hrun; simpl in Hrun.
  - injection Hrun as <-. exact HP.
  - destruct (step count_with_value i P) as [P1|] eqn:E; [|discriminate].
    simpl in Hrun. exact (IH P1 (step_value_inv tasks i P P1 HP E) Hrun).
Qed.

(** X28: without the lock increments can be lost but are never invented:
    in every interleaving the value stays between 0 and the number of
    calls, and when the map has returned from at least one call it is at
    least 1. *)
Theorem counter_without_lock_bounds (procs tasks : nat) (sched : list nat) (P : pool) :
  run count_with_value sched (init procs tasks) = Some P →
  (0 ≤ val P ≤ Z.of_nat tasks)%Z
  ∧ (finished P → (1 ≤ tasks)%nat → (1 ≤ val P)%Z).
Proof.
  intros Hrun.
  destruct (run_value_inv tasks sched _ P (value_inv_init procs tasks) Hrun)
    as (_ & Hv & Hsum & _ & Hone).
  pose proof (Zsum_nonneg unwritten (workers P) unwritten_nonneg) as Hnn.
  split; [lia|]. intros [Hp Hidle] Ht. rewrite Forall_lookup in Hidle.
  assert (Hz : Zsum unwritten (workers P) = 0%Z).
  { apply Zsum_zero. intros i w Hw. rewrite (Hidle i w Hw). reflexivity. }
  rewrite Hp, Hz in Hone. destruct Hone; lia.
Qed.

Lemma counter_without_lock_bounds_witness :
  (0 ≤ val {| val := 1; lock := false; pending := 0;
              workers := [{| code := []; tmp := 0 |}; {| code := []; tmp := 0 |}] |}
     ≤ Z.of_nat 2)%Z
  ∧ (finished {| val := 1; lock := false; pending := 0;
                 workers := [{| code := []; tmp := 0 |}; {| code := []; tmp := 0 |}] |} →
     (1 ≤ 2)%nat →
     (1 ≤ val {| val := 1; lock := false; pending := 0;
                 workers := [{| code := []; tmp := 0 |}; {| code := []; tmp := 0 |}] |})%Z).
Proof.
  apply (counter_without_lock_bounds 2 2 [0; 1; 0; 1; 0; 1]%nat). reflexivity.
Defined.

(** Worker 0 alone runs [k] unlocked calls one after the other. *)
Lemma calls_by_worker_0 (k r : nat) (v t : Z) (l : bool) (ws : list worker) :
  ∃ t', run count_with_value (concat (replicate k [0; 0; 0]%nat))
      {| val := v; lock := l; pending := k + r;
         workers := {| code := []; tmp := t |} :: ws |}
    = Some {| val := (v + Z.of_nat k)%Z; lock := l; pending := r;
              workers := {| code := []; tmp := t' |} :: ws |}.
Proof.
  revert v t; induction k as [|k IH]; intros v t.
  - exists t. simpl. rewrite Z.add_0_r. reflexivity.
  - destruct (IH (v + 1)%Z v) as [t' Ht']. exists t'.
    change (concat (replicate (S k) [0; 0; 0]%nat))
      with ([0; 0; 0]%nat ++ concat (replicate k [0; 0; 0]%nat)).
    rewrite run_app. change (S k + r)%nat with (S (k + r)).
    rewrite one_call_with_value. simpl. rewrite Ht'.
    do 2 f_equal. lia.
Qed.

(** Worker 1 alone runs [k] unlocked calls, whatever worker 0 is doing. *)
Lemma calls_by_worker_1 (k r : nat) (v t : Z) (l : bool) (w0 : worker)
    (ws : list worker) :
  ∃ t', run count_with_value (concat (replicate k [1; 1; 1]%nat))
      {| val := v; lock := l; pending := k + r;
         workers := w0 :: {| code := []; tmp := t |} :: ws |}
    = Some {| val := (v + Z.of_nat k)%Z; lock := l; pending := r;
              workers := w0 :: {| code := []; tmp := t' |} :: ws |}.
Proof.
  revert v t; induction k as [|k IH]; intros v t.
  - exists t. simpl. rewrite Z.add_0_r. reflexivity.
  - destruct (IH (v + 1)%Z v) as [t' Ht']. exists t'.
    change (concat (replicate (S k) [1; 1; 1]%nat))
      with ([1; 1; 1]%nat ++ concat (replicate k [1; 1; 1]%nat)).
    rewrite run_app. change (S k + r)%nat with (S (k + r)).
    change (run count_with_value [1; 1; 1]%nat
              {| val := v; lock := l; pending := S (k + r);
                 workers := w0 :: {| code := []; tmp := t |} :: ws |})
      with (Some {| val := (v + 1)%Z; lock := l; pending := (k + r)%nat;
                    workers := w0 :: {| code := []; tmp := v |} :: ws |}).
    simpl. rewrite Ht'. do 2 f_equal. lia.
Qed.

(** Worker 0 takes a call and reads the value, and does not write yet. *)
Lemma read_by_worker_0 (v t : Z) (l : bool) (k : nat) (ws : list worker) :
  run count_with_value [0; 0]%nat
    {| val := v; lock := l; pending := S k;
       workers := {| code := []; tmp := t |} :: ws |}
  = Some {| val := v; lock := l; pending := k;
            workers := {| code := [Store]; tmp := v |} :: ws |}.
Proof. reflexivity. Qed.

Lemma map_chunksize_one (procs tasks : nat) :
  (1 ≤ procs)%nat →
  map_chunksize procs tasks = 1%nat ↔ (1 ≤ tasks ≤ 4 * procs)%nat.
Proof.
  intros Hp. unfold map_chunksize.
  assert (Hd : (procs * 4 ≠ 0)%nat) by lia.
  pose proof (Nat.div_mod_eq tasks (procs * 4)) as E.
  pose proof (Nat.mod_upper_bound tasks (procs * 4) Hd) as Hm.
  destruct (decide (tasks = 0)%nat) as [->|Hz]; [split; [discriminate|lia]|].
  destruct (decide (tasks mod (procs * 4) = 0)%nat) as [Hr|Hr].
  - rewrite Hr in E. split; intros H.
    + rewrite H in E. lia.
    + destruct H as [H1 H2]. nia.
  - split; intros H.
    + injection H as H. rewrite H in E. lia.
    + destruct H as [H1 H2]. f_equal.
      destruct (tasks / (procs * 4))%nat as [|q] eqn:Hq; [reflexivity|nia].
Qed.

(** X29: when the map hands out the calls one at a time (chunk size 1,
    that is, no more than 4 calls per worker process) and there are two or
    more workers, the bounds of the unlocked counter are attained, and so is
    everything between them: for every v from 1 to the number of calls some
    interleaving lets the map return with val.value = v. *)
Theorem counter_without_lock_reaches (procs tasks v : nat) :
  (2 ≤ procs)%nat → map_chunksize procs tasks = 1%nat →
  (1 ≤ v)%nat → (v ≤ tasks)%nat →
  ∃ sched P, run count_with_value sched (init procs tasks) = Some P
    ∧ finished P ∧ val P = Z.of_nat v.
Proof.
  intros Hp _ Hv Ht.
  destruct procs as [|[|p]]; [lia|lia|].
  destruct v as [|a]; [lia|].
  replace tasks with (a + S ((tasks - S a) + 0))%nat by lia.
  set (b := (tasks - S a)%nat).
  destruct (calls_by_worker_0 a (S (b + 0)) 0 0 false
              ({| code := []; tmp := 0 |} :: replicate p {| code := []; tmp := 0 |}))
    as [t0 H0].
  destruct (calls_by_worker_1 b 0 (0 + Z.of_nat a) 0 false
              {| code := [Store]; tmp := (0 + Z.of_nat a)%Z |}
              (replicate p {| code := []; tmp := 0 |}))
    as [t1 H1].
  exists (concat (replicate a [0; 0; 0]%nat) ++ [0; 0]%nat
          ++ concat (replicate b [1; 1; 1]%nat) ++ [0]%nat).
  eexists. split.
  - change (init (S (S p)) (a + S (b + 0)))
      with {| val := 0; lock := false; pending := a + S (b + 0);
              workers := {| code := []; tmp := 0 |} :: {| code := []; tmp := 0 |}
                         :: replicate p {| code := []; tmp := 0 |} |}.
    rewrite run_app, H0. cbn [mbind option_bind].
    rewrite run_app, read_by_worker_0. cbn [mbind option_bind].
    rewrite run_app, H1. cbn [mbind option_bind]. reflexivity.
  - split; [|simpl; lia].
    split; [reflexivity|]. simpl.
    repeat (constructor; [reflexivity|]).
    apply Forall_replicate. reflexivity.
Qed.

Lemma counter_without_lock_reaches_witness :
  ∃ sched P, run count_with_value sched (init 4 16) = Some P
    ∧ finished P ∧ val P = Z.of_nat 1.
Proof.
  apply (counter_without_lock_reaches 4 16 1); [lia|reflexivity|lia|lia].
Defined.

End CounterMore.
